(** * pkg/git/client.go: the caching git client

    A shallow embedding of the git client of pkg/git (client.go): the
    retry wrapper, the remote hash query, the clone-or-fetch protocol on
    the mirror cache and the per-repository lock registry, followed by the
    properties stated for them. *)

From Stdlib Require Import ZArith String Ascii List Bool Lia DecimalString.
From stdpp Require Import gmap strings list.

Open Scope string_scope.
Open Scope Z_scope.

#[local] Arguments String.append !s1 s2 : simpl nomatch.

(** ** The parts of the Go library that client.go calls *)

Definition tab : ascii := "009"%char.
Definition newline : ascii := "010"%char.
Definition slash : ascii := "/"%char.

(** strings.HasPrefix *)
Fixpoint strings_HasPrefix (s pre : string) {struct pre} : bool :=
  match pre with
  | EmptyString => true
  | String a pre' =>
      match s with
      | EmptyString => false
      | String b s' => Ascii.eqb a b && strings_HasPrefix s' pre'
      end
  end.

(** strings.Split with an empty separator: one string per byte. *)
Fixpoint explode (s : string) : list string :=
  match s with
  | EmptyString => []
  | String c s' => String c EmptyString :: explode s'
  end.

(** The splitting loop of strings.Split for a separator that is not empty:
    [skip] counts the bytes of the separator occurrence being passed. *)
Fixpoint genSplit (sep : string) (skip : nat) (s : string) : list string :=
  match s with
  | EmptyString => [EmptyString]
  | String c s' =>
      match skip with
      | S k => genSplit sep k s'
      | O =>
          if strings_HasPrefix s sep
          then EmptyString :: genSplit sep (String.length sep - 1) s'
          else match genSplit sep O s' with
               | p :: ps => String c p :: ps
               | [] => [String c EmptyString]
               end
      end
  end.

(** strings.Split(s, sep) *)
Definition strings_Split (s sep : string) : list string :=
  match sep with
  | EmptyString => explode s
  | _ => genSplit sep O s
  end.

(** strings.Join(elems, sep) *)
Definition strings_Join (elems : list string) (sep : string) : string :=
  String.concat sep elems.

(** fmt's %d verb on an integer. *)
Definition fmt_d (z : Z) : string := NilZero.string_of_int (Z.to_int z).

(** path/filepath on a Unix host: Clean works on the elements between
    slashes; [stack] holds the elements kept so far, last one first. *)
Fixpoint cleanElems (rooted : bool) (stack : list string) (elems : list string)
  : list string :=
  match elems with
  | [] => rev stack
  | e :: es =>
      if String.eqb e "" || String.eqb e "." then cleanElems rooted stack es
      else if String.eqb e ".." then
        match stack with
        | top :: below =>
            if String.eqb top ".." then cleanElems rooted (e :: stack) es
            else cleanElems rooted below es
        | [] =>
            if rooted then cleanElems rooted stack es
            else cleanElems rooted (e :: stack) es
        end
      else cleanElems rooted (e :: stack) es
  end.

(** filepath.Clean *)
Definition filepath_Clean (path : string) : string :=
  match path with
  | EmptyString => "."
  | String c _ =>
      let rooted := Ascii.eqb c slash in
      let kept := cleanElems rooted [] (strings_Split path "/") in
      match rooted, kept with
      | false, [] => "."
      | false, _ => strings_Join kept "/"
      | true, _ => "/" ++ strings_Join kept "/"
      end
  end.

(** filepath.Join: leading empty elements are dropped, the rest is joined
    with the separator and cleaned. *)
Fixpoint filepath_Join (elem : list string) : string :=
  match elem with
  | [] => ""
  | e :: rest =>
      if String.eqb e "" then filepath_Join rest
      else filepath_Clean (strings_Join elem "/")
  end.

Fixpoint hasSlash (s : string) : bool :=
  match s with
  | EmptyString => false
  | String c s' => Ascii.eqb c slash || hasSlash s'
  end.

(** path[:i+1] for the index i of the last slash of path. *)
Fixpoint upToLastSlash (s : string) : string :=
  match s with
  | EmptyString => ""
  | String c s' =>
      if hasSlash s' then String c (upToLastSlash s')
      else if Ascii.eqb c slash then "/" else ""
  end.

(** filepath.Dir *)
Definition filepath_Dir (path : string) : string :=
  filepath_Clean (upToLastSlash path).

(** os.ModePerm *)
Definition os_ModePerm : Z := 511.

(** time.Second, a time.Duration: nanoseconds in an int64. *)
Definition time_Second : Z := 1000000000.

(** ** Errors, loggers and observable events *)

(** The error values the client meets.  [errorString] is what fmt.Errorf
    builds; the others come from the os, context and os/exec packages. *)
Inductive error : Type :=
| ErrNotExist
| ErrExist
| ErrPermission
| context_Canceled
| context_DeadlineExceeded
| ExitError (code : Z)
| errorString (msg : string).

(** The Error() method. *)
Definition Error (e : error) : string :=
  match e with
  | ErrNotExist => "file does not exist"
  | ErrExist => "file already exists"
  | ErrPermission => "permission denied"
  | context_Canceled => "context canceled"
  | context_DeadlineExceeded => "context deadline exceeded"
  | ExitError code => "exit status " ++ fmt_d code
  | errorString msg => msg
  end.

(** A Go [error] value is [None] when nil. *)
Definition os_IsNotExist (err : option error) : bool :=
  match err with Some ErrNotExist => true | _ => false end.

Definition os_IsExist (err : option error) : bool :=
  match err with Some ErrExist => true | _ => false end.

Definition isNil (err : option error) : bool :=
  match err with None => true | Some _ => false end.

(** fmt.Errorf(prefix + ": %v", err) *)
Definition fmt_Errorf_v (pre : string) (err : error) : error :=
  errorString (pre ++ ": " ++ Error err).

Inductive level : Type := InfoLevel | WarnLevel | ErrorLevel.

(** A zap logger is the list of fields attached to it with With. *)
Record Logger : Type := mkLogger { lg_fields : list (string * string) }.

Definition Logger_With (lg : Logger) (fields : list (string * string)) : Logger :=
  mkLogger (lg_fields lg ++ fields).

(** Modelled from the spec: the working-copy handle built by NewRepo, which
    is declared in repo.go: it is bound to the full name of the repository,
    the destination path, the path of the git binary and the remote. *)
Record Repo : Type := NewRepo {
  repo_fullName : string;
  repo_dir : string;
  repo_gitPath : string;
  repo_remote : string;
  repo_logger : Logger
}.

(** What a run of the client leaves to be observed, in order. *)
Inductive Event : Type :=
| EvGit (dir : string) (args : list string)
| EvLog (lvl : level) (msg : string) (fields : list (string * string))
| EvSleep (d : Z)
| EvMkdirAll (path : string) (perm : Z)
| EvRemoveAll (path : string)
| EvSetUser (dir username email : string).

Definition isMirrorClone (e : Event) : bool :=
  match e with
  | EvGit _ [a; b; _; _] => String.eqb a "clone" && String.eqb b "--mirror"
  | _ => false
  end.

Definition isFetch (e : Event) : bool :=
  match e with
  | EvGit _ [a] => String.eqb a "fetch"
  | _ => false
  end.

Definition isLocalClone (e : Event) : bool :=
  match e with
  | EvGit _ [a; _; _] => String.eqb a "clone"
  | _ => false
  end.

Definition isGit (e : Event) : bool :=
  match e with EvGit _ _ => true | _ => false end.

Definition isWarn (e : Event) : bool :=
  match e with EvLog WarnLevel _ _ => true | _ => false end.

Definition isSleep (e : Event) : bool :=
  match e with EvSleep _ => true | _ => false end.

Definition isRemoveAll (e : Event) : bool :=
  match e with EvRemoveAll _ => true | _ => false end.

Definition isSetUser (e : Event) : bool :=
  match e with EvSetUser _ _ _ => true | _ => false end.

(** How many events of a run satisfy [p]. *)
Definition count (p : Event -> bool) (evs : list Event) : nat :=
  List.length (List.filter p evs).

(** ** The host: file system, processes and the rest of repo.go

    [Ext] is the state of everything outside the client (the disk, the
    remote, the clock); [Ctx] is context.Context.  An operation takes the
    state and gives it back with its result. *)
Class Host (Ext Ctx : Type) : Type := {
  (** the error of os.Stat(path) *)
  os_Stat : string -> Ext -> option error;
  (** os.MkdirAll(path, perm) *)
  os_MkdirAll : string -> Z -> Ext -> option error * Ext;
  (** os.RemoveAll(path) *)
  os_RemoveAll : string -> Ext -> option error * Ext;
  (** exec.CommandContext(ctx, name, args...) with cmd.Dir = dir, then
      cmd.CombinedOutput() *)
  exec_CombinedOutput :
    Ctx -> string -> list string -> string -> Ext -> (string * option error) * Ext;
  (** Repo.SetUser(ctx, username, email), declared in repo.go *)
  repo_SetUser : Ctx -> Repo -> string -> string -> Ext -> option error * Ext
}.

(** ** The state of a process and its computations *)

(** The mutable part of a process running one client: the host, the two
    mutable fields of the client struct ([mu] and [repoLocks], the
    sync.Mutex objects living in [mutexes]) and the events so far. *)
Record World (Ext : Type) : Type := mkWorld {
  host : Ext;
  mu : bool;
  repoLocks : gmap string nat;
  mutexes : gmap nat bool;
  events : list Event
}.
Arguments mkWorld {Ext}.
Arguments host {Ext}.
Arguments mu {Ext}.
Arguments repoLocks {Ext}.
Arguments mutexes {Ext}.
Arguments events {Ext}.

(** A call returns, waits for ever on a mutex that nobody will release,
    panics, or ends the process with a fatal error of the runtime, which
    no deferred call sees and nothing recovers. *)
Inductive outcome (A : Type) : Type :=
| Ret (a : A)
| Blocked
| Panic (msg : string)
| Fatal (msg : string).
Arguments Ret {A}.
Arguments Blocked {A}.
Arguments Panic {A}.
Arguments Fatal {A}.

Definition M (Ext A : Type) : Type := World Ext -> outcome A * World Ext.

Definition ret {Ext A} (a : A) : M Ext A := fun w => (Ret a, w).

Definition bind {Ext A B} (m : M Ext A) (k : A -> M Ext B) : M Ext B :=
  fun w =>
    match m w with
    | (Ret a, w') => k a w'
    | (Blocked, w') => (Blocked, w')
    | (Panic msg, w') => (Panic msg, w')
    | (Fatal msg, w') => (Fatal msg, w')
    end.

Notation "'let*' x ':=' m 'in' k" := (bind m (fun x => k))
  (at level 10, x pattern, m at level 100, k at level 200).

Definition panic {Ext A} (msg : string) : M Ext A := fun w => (Panic msg, w).

(** [defer cleanup; body]: the deferred call runs when the body returns
    and when it panics, not after a fatal error. *)
Definition defer {Ext A} (cleanup : M Ext unit) (body : M Ext A) : M Ext A :=
  fun w =>
    match body w with
    | (Ret a, w') => (let* _ := cleanup in ret a) w'
    | (Blocked, w') => (Blocked, w')
    | (Panic msg, w') =>
        match cleanup w' with
        | (Ret _, w'') => (Panic msg, w'')
        | (Blocked, w'') => (Blocked, w'')
        | (Panic msg', w'') => (Panic msg', w'')
        | (Fatal msg', w'') => (Fatal msg', w'')
        end
    | (Fatal msg, w') => (Fatal msg, w')
    end.

Definition emit {Ext} (e : Event) : M Ext unit :=
  fun w => (Ret tt, mkWorld (host w) (mu w) (repoLocks w) (mutexes w) (events w ++ [e])).

(** A host operation run from the client: the event is recorded and the
    host state replaced. *)
Definition hostOp {Ext A} (e : Event) (op : Ext -> A * Ext) : M Ext A :=
  fun w =>
    let '(a, x) := op (host w) in
    (Ret a, mkWorld x (mu w) (repoLocks w) (mutexes w) (events w ++ [e])).

Definition Logger_log {Ext} (lvl : level) (lg : Logger) (msg : string)
    (fields : list (string * string)) : M Ext unit :=
  emit (EvLog lvl msg (lg_fields lg ++ fields)).

Definition time_Sleep {Ext} (d : Z) : M Ext unit := emit (EvSleep d).

(** ** client.go *)

(** The fields of the client struct that never change; [mu] and
    [repoLocks] are in the [World]. *)
Record client : Type := mkClient {
  username : string;
  email : string;
  gitPath : string;
  cacheDir : string;
  logger : Logger
}.

Section Client.
Context {Ext Ctx : Type} `{Host Ext Ctx}.

(** func (c *client) runGitCommand(ctx, dir, args...) *)
Definition runGitCommand (c : client) (ctx : Ctx) (dir : string)
    (args : list string) : M Ext (string * option error) :=
  hostOp (EvGit dir args) (exec_CombinedOutput ctx (gitPath c) args dir).

(** The loop of retryCommand with [n] iterations left, at index [i];
    [last] holds the named results out and err. *)
Fixpoint retryLoop (n : nat) (i : Z) (interval : Z) (lg : Logger)
    (commander : M Ext (string * option error))
    (last : string * option error) : M Ext (string * option error) :=
  match n with
  | O => ret last
  | S n' =>
      let* r := commander in
      match snd r with
      | None => ret r
      | Some _ =>
          let* _ := Logger_log WarnLevel lg
                      ("command was failed " ++ fmt_d (i + 1)
                       ++ " times, sleep " ++ fmt_d interval
                       ++ " seconds before retrying command") [] in
          let* _ := time_Sleep interval in
          retryLoop n' (i + 1) interval lg commander r
      end
  end.

(** func retryCommand(retries, interval, logger, commander) *)
Definition retryCommand (retries : Z) (interval : Z) (lg : Logger)
    (commander : M Ext (string * option error))
  : M Ext (string * option error) :=
  retryLoop (Z.to_nat retries) 0 interval lg commander ("", None).

(** func (c *client) GetLatestRemoteHashForBranch(ctx, remote, branch) *)
Definition GetLatestRemoteHashForBranch (c : client) (ctx : Ctx)
    (remote branch : string) : M Ext (string * option error) :=
  let ref := "refs/heads/" ++ branch in
  let* r := retryCommand 3 time_Second (logger c)
              (runGitCommand c ctx "" ["ls-remote"; ref]) in
  let '(out, err) := r in
  match err with
  | Some e =>
      let* _ := Logger_log ErrorLevel (logger c)
                  "failed to get latest remote hash for branch"
                  [("remote", remote); ("branch", branch); ("out", out);
                   ("error", Error e)] in
      ret ("", Some e)
  | None =>
      let parts := strings_Split out (String tab "") in
      match parts with
      | p0 :: _ => ret (p0, None)
      | [] => panic "index out of range [0] with length 0"
      end
  end.

(** func (c *client) lockRepo(repoFullName), in a process where nobody
    else runs: a Lock on a held mutex never returns. *)
Definition lockRepo (repoFullName : string) : M Ext unit :=
  fun w =>
    if mu w then (Blocked, w)
    else
      let '(locks, heap) :=
        match repoLocks w !! repoFullName with
        | Some _ => (repoLocks w, mutexes w)
        | None =>
            let l := fresh (dom (mutexes w)) in
            (<[repoFullName := l]> (repoLocks w), <[l := false]> (mutexes w))
        end in
      let w1 := mkWorld (host w) false locks heap (events w) in
      match locks !! repoFullName with
      | None => (Panic "nil pointer dereference", w1)
      | Some l =>
          match heap !! l with
          | Some false =>
              (Ret tt, mkWorld (host w) false locks (<[l := true]> heap) (events w))
          | Some true => (Blocked, w1)
          | None => (Panic "nil pointer dereference", w1)
          end
      end.

(** func (c *client) unlockRepo(repoFullName).  The Unlock of the repository
    mutex runs between c.mu.Lock() and c.mu.Unlock(): when it panics (nil
    entry) or stops the process (mutex not locked), c.mu is still held. *)
Definition unlockRepo (repoFullName : string) : M Ext unit :=
  fun w =>
    if mu w then (Blocked, w)
    else
      let held := mkWorld (host w) true (repoLocks w) (mutexes w) (events w) in
      match repoLocks w !! repoFullName with
      | None => (Panic "nil pointer dereference", held)
      | Some l =>
          match mutexes w !! l with
          | Some true =>
              (Ret tt, mkWorld (host w) false (repoLocks w)
                         (<[l := false]> (mutexes w)) (events w))
          | _ => (Fatal "sync: unlock of unlocked mutex", held)
          end
      end.

(** The path of the mirror of a repository (repoCachePath in Clone). *)
Definition repoCachePath (c : client) (repoFullName : string) : string :=
  filepath_Join [cacheDir c; repoFullName] ++ ".git".

(** The end of Clone, from the os.MkdirAll of the destination on. *)
Definition cloneFromLocal (c : client) (ctx : Ctx) (lg : Logger)
    (remote repoFullName destination : string)
  : M Ext (option Repo * option error) :=
  let* err := hostOp (EvMkdirAll destination os_ModePerm)
                (os_MkdirAll destination os_ModePerm) in
  match err with
  | Some e => ret (None, Some e)
  | None =>
      let* r := runGitCommand c ctx ""
                  ["clone"; repoCachePath c repoFullName; destination] in
      match snd r with
      | Some e =>
          let* _ := Logger_log ErrorLevel lg "failed to clone from local"
                      [("out", fst r); ("repo-path", destination);
                       ("error", Error e)] in
          ret (None, Some (fmt_Errorf_v "failed to clone from local" e))
      | None =>
          let r := NewRepo repoFullName destination (gitPath c) remote (logger c) in
          if negb (String.eqb (username c) "") || negb (String.eqb (email c) "")
          then
            let* err := hostOp (EvSetUser destination (username c) (email c))
                          (repo_SetUser ctx r (username c) (email c)) in
            match err with
            | Some e => ret (None, Some (fmt_Errorf_v "failed to set user" e))
            | None => ret (Some r, None)
            end
          else ret (Some r, None)
      end
  end.

(** The body of Clone, from os.Stat on: what runs between lockRepo and the
    deferred unlockRepo.  [remote] and [logger] are the variables that
    Clone declares first. *)
Definition cloneLocked (c : client) (ctx : Ctx)
    (base repoFullName destination : string)
  : M Ext (option Repo * option error) :=
  let remote := base ++ "/" ++ repoFullName in
  let lg := Logger_With (logger c)
              [("base", base); ("repo", repoFullName);
               ("repo-cache-path", repoCachePath c repoFullName)] in
  fun w =>
    let err := os_Stat (repoCachePath c repoFullName) (host w) in
    if negb (isNil err) && negb (os_IsNotExist err) then (Ret (None, err), w)
    else if os_IsNotExist err then
      (let* _ := Logger_log InfoLevel lg
                   ("cloning " ++ repoFullName ++ " for the first time") [] in
       let* err := hostOp (EvMkdirAll (filepath_Dir (repoCachePath c repoFullName))
                             os_ModePerm)
                     (os_MkdirAll (filepath_Dir (repoCachePath c repoFullName))
                        os_ModePerm) in
       if negb (isNil err) && negb (os_IsExist err) then ret (None, err)
       else
         let* r := retryCommand 3 time_Second lg
                     (runGitCommand c ctx ""
                        ["clone"; "--mirror"; remote; repoCachePath c repoFullName]) in
         match snd r with
         | Some e =>
             let* _ := Logger_log ErrorLevel lg "failed to clone from remote"
                         [("out", fst r); ("error", Error e)] in
             ret (None, Some (fmt_Errorf_v "failed to clone from remote" e))
         | None => cloneFromLocal c ctx lg remote repoFullName destination
         end) w
    else
      (let* _ := Logger_log InfoLevel (logger c)
                   ("fetching " ++ repoFullName ++ " to update the cache") [] in
       let* r := retryCommand 3 time_Second (logger c)
                   (runGitCommand c ctx (repoCachePath c repoFullName) ["fetch"]) in
       match snd r with
       | Some e =>
           let* _ := Logger_log ErrorLevel lg "failed to fetch from remote"
                       [("out", fst r); ("error", Error e)] in
           ret (None, Some (fmt_Errorf_v "failed to fetch" e))
       | None => cloneFromLocal c ctx lg remote repoFullName destination
       end) w.

(** func (c *client) Clone(ctx, base, repoFullName, destination) *)
Definition Clone (c : client) (ctx : Ctx)
    (base repoFullName destination : string)
  : M Ext (option Repo * option error) :=
  let* _ := lockRepo repoFullName in
  defer (unlockRepo repoFullName)
    (cloneLocked c ctx base repoFullName destination).

(** func (c *client) Clean() *)
Definition Clean (c : client) : M Ext (option error) :=
  hostOp (EvRemoveAll (cacheDir c)) (os_RemoveAll (cacheDir c)).

End Client.

(** ** Vocabulary of the properties *)

(** The events a call added to the log of [w], given the world [w'] it
    ended in. *)
Definition added {Ext} (w w' : World Ext) : list Event :=
  drop (List.length (events w)) (events w').

(** The lock of [repoFullName] is free, and so is the registry mutex: a
    call to lockRepo does not wait. *)
Definition lockFree {Ext} (repoFullName : string) (w : World Ext) : Prop :=
  mu w = false /\
  match repoLocks w !! repoFullName with
  | None => True
  | Some l => mutexes w !! l = Some false
  end.

(** The result and host state of the [k]-th of [k] calls in a row of a
    host operation, from the host state [x]. *)
Fixpoint nthCall {Ext A} (op : Ext -> A * Ext) (dflt : A) (k : nat) (x : Ext)
  : A * Ext :=
  match k with
  | O => (dflt, x)
  | S k' => op (snd (nthCall op dflt k' x))
  end.

(** How many times a loop of at most [n] attempts calls [op]: up to the
    first call that returns a nil error. *)
Fixpoint attempts {Ext} (op : Ext -> (string * option error) * Ext) (n : nat)
    (x : Ext) : nat :=
  match n with
  | O => O
  | S n' =>
      match snd (fst (op x)) with
      | None => 1%nat
      | Some _ => S (attempts op n' (snd (op x)))
      end
  end.

(** A path element that filepath.Clean keeps as it is. *)
Definition plainElem (e : string) : bool :=
  negb (String.eqb e "") && negb (String.eqb e ".") && negb (String.eqb e "..").

(** A relative path made of plain elements, such as [org/repo]. *)
Definition cleanRel (p : string) : bool :=
  forallb plainElem (strings_Split p "/").

(** An absolute path made of plain elements, such as [/tmp/gitcache1]. *)
Definition cleanAbs (p : string) : bool :=
  match p with
  | String c d => Ascii.eqb c slash && cleanRel d
  | EmptyString => false
  end.

(** [p] is a path below the directory [root]. *)
Definition pathUnder (root p : string) : bool :=
  strings_HasPrefix p (root ++ "/").

Definition isSpace (c : ascii) : bool :=
  Ascii.eqb c " " || Ascii.eqb c tab || Ascii.eqb c newline
  || Ascii.eqb c "011" || Ascii.eqb c "012" || Ascii.eqb c "013".

Fixpoint trimLeft (s : string) : string :=
  match s with
  | String c s' => if isSpace c then trimLeft s' else s
  | EmptyString => EmptyString
  end.

Fixpoint allSpace (s : string) : bool :=
  match s with
  | String c s' => isSpace c && allSpace s'
  | EmptyString => true
  end.

Fixpoint trimRight (s : string) : string :=
  match s with
  | String c s' => if allSpace s then EmptyString else String c (trimRight s')
  | EmptyString => EmptyString
  end.

(** strings.TrimSpace *)
Definition strings_TrimSpace (s : string) : string := trimRight (trimLeft s).

Fixpoint hasTab (s : string) : bool :=
  match s with
  | String c s' => Ascii.eqb c tab || hasTab s'
  | EmptyString => false
  end.

Fixpoint beforeTab (s : string) : string :=
  match s with
  | String c s' => if Ascii.eqb c tab then EmptyString else String c (beforeTab s')
  | EmptyString => EmptyString
  end.

(** The hash as the specification words it: everything before the first tab of the
    output, or the whole trimmed output when it has no tab. *)
Definition spec_hash (out : string) : string :=
  if hasTab out then beforeTab out else strings_TrimSpace out.

(** ** A scripted host, to run the client on

    The disk is the list of the paths that exist; git answers with the
    next result of a script and, when it succeeds, a clone creates its
    target. *)
Record Sim : Type := mkSim {
  sim_paths : list string;
  sim_script : list (string * option error);
  sim_setUser : option error
}.

Definition sim_exists (p : string) (x : Sim) : bool :=
  existsb (String.eqb p) (sim_paths x).

Definition sim_create (p : string) (x : Sim) : Sim :=
  if sim_exists p x then x
  else mkSim (p :: sim_paths x) (sim_script x) (sim_setUser x).

Definition sim_target (args : list string) : option string :=
  match args with
  | [a; b; _; p] =>
      if String.eqb a "clone" && String.eqb b "--mirror" then Some p else None
  | [a; _; p] => if String.eqb a "clone" then Some p else None
  | _ => None
  end.

Definition sim_exec (args : list string) (x : Sim) : (string * option error) * Sim :=
  match sim_script x with
  | [] =>
      (("", None),
       match sim_target args with Some p => sim_create p x | None => x end)
  | (out, err) :: rest =>
      let x' := mkSim (sim_paths x) rest (sim_setUser x) in
      ((out, err),
       match err, sim_target args with
       | None, Some p => sim_create p x'
       | _, _ => x'
       end)
  end.

#[export] Instance simHost : Host Sim unit := {
  os_Stat p x := if sim_exists p x then None else Some ErrNotExist;
  os_MkdirAll p _ x := (None, sim_create p x);
  os_RemoveAll p x :=
    (None,
     mkSim (List.filter
              (fun q => negb (String.eqb q p || strings_HasPrefix q (p ++ "/")))
              (sim_paths x))
       (sim_script x) (sim_setUser x));
  exec_CombinedOutput _ _ args _ x := sim_exec args x;
  repo_SetUser _ _ _ _ x := (sim_setUser x, x)
}.

Definition simClient : client :=
  mkClient "" "" "/usr/bin/git" "/tmp/gitcache1" (mkLogger []).

Definition simWorld (paths : list string) (script : list (string * option error))
  : World Sim :=
  mkWorld (mkSim paths script None) false ∅ ∅ [].

Definition outcomeOf {Ext A} (r : outcome A * World Ext) : outcome A := fst r.
Definition worldOf {Ext A} (r : outcome A * World Ext) : World Ext := snd r.

(** ** lockRepo and unlockRepo under interleaving

    Goroutines call Clone at the same time; goroutine [t] calls it for the
    repository [key t].  Every statement of lockRepo and of unlockRepo is
    one atomic step; the body of Clone between them, which touches neither
    [mu] nor [repoLocks], is one step too. *)

(** Where a goroutine is in its call.  A local [mu] of lockRepo is a
    pointer to a mutex, [None] when nil. *)
Inductive pc : Type :=
| AtLock                        (* lockRepo: before c.mu.Lock() *)
| AtCheck                       (* before _, ok := c.repoLocks[repoFullName] *)
| AtInsert                      (* before c.repoLocks[repoFullName] = &sync.Mutex{} *)
| AtRead                        (* before mu := c.repoLocks[repoFullName] *)
| AtRelease (m : option nat)    (* before c.mu.Unlock() *)
| AtAcquire (m : option nat)    (* before mu.Lock() *)
| InBody (l : nat)              (* the body of Clone, mutex l taken *)
| AtUnlock (l : nat)            (* unlockRepo: before c.mu.Lock() *)
| AtUnlockRepo (l : nat)        (* before c.repoLocks[repoFullName].Unlock() *)
| AtUnlockMu                    (* before c.mu.Unlock() *)
| Returned
| Crashed.

(** The client shared by the goroutines, and where each of them is. *)
Record Pool : Type := mkPool {
  c_mu : bool;
  c_repoLocks : gmap string nat;
  heap : gmap nat bool;
  pcs : nat -> pc
}.

Definition setPc (t : nat) (p : pc) (f : nat -> pc) : nat -> pc :=
  fun t' => if Nat.eqb t' t then p else f t'.

Definition initPool : Pool := mkPool false ∅ ∅ (fun _ => AtLock).

(** The mutex a goroutine has taken with mu.Lock() and not yet released. *)
Definition holds (p : pc) : option nat :=
  match p with
  | InBody l | AtUnlock l | AtUnlockRepo l => Some l
  | _ => None
  end.

(** The mutex a goroutine has read from the registry. *)
Definition lockRef (p : pc) : option nat :=
  match p with
  | AtRelease m | AtAcquire m => m
  | InBody l | AtUnlock l | AtUnlockRepo l => Some l
  | _ => None
  end.

(** The goroutine is between c.mu.Lock() and c.mu.Unlock(). *)
Definition inRegistry (p : pc) : bool :=
  match p with
  | AtCheck | AtInsert | AtRead | AtRelease _ | AtUnlockRepo _ | AtUnlockMu => true
  | _ => false
  end.

Section Interleaving.
Variable key : nat -> string.

(** The next statement of goroutine [t]; [None] when it waits for a
    mutex or has finished. *)
Definition step (t : nat) (s : Pool) : option Pool :=
  let go p := setPc t p (pcs s) in
  match pcs s t with
  | AtLock =>
      if c_mu s then None
      else Some (mkPool true (c_repoLocks s) (heap s) (go AtCheck))
  | AtCheck =>
      match c_repoLocks s !! key t with
      | Some _ => Some (mkPool (c_mu s) (c_repoLocks s) (heap s) (go AtRead))
      | None => Some (mkPool (c_mu s) (c_repoLocks s) (heap s) (go AtInsert))
      end
  | AtInsert =>
      let l := fresh (dom (heap s)) in
      Some (mkPool (c_mu s) (<[key t := l]> (c_repoLocks s))
              (<[l := false]> (heap s)) (go AtRead))
  | AtRead =>
      Some (mkPool (c_mu s) (c_repoLocks s) (heap s)
              (go (AtRelease (c_repoLocks s !! key t))))
  | AtRelease m =>
      if c_mu s
      then Some (mkPool false (c_repoLocks s) (heap s) (go (AtAcquire m)))
      else Some (mkPool (c_mu s) (c_repoLocks s) (heap s) (go Crashed))
  | AtAcquire None =>
      Some (mkPool (c_mu s) (c_repoLocks s) (heap s) (go Crashed))
  | AtAcquire (Some l) =>
      match heap s !! l with
      | Some false =>
          Some (mkPool (c_mu s) (c_repoLocks s) (<[l := true]> (heap s))
                  (go (InBody l)))
      | Some true => None
      | None => Some (mkPool (c_mu s) (c_repoLocks s) (heap s) (go Crashed))
      end
  | InBody l =>
      Some (mkPool (c_mu s) (c_repoLocks s) (heap s) (go (AtUnlock l)))
  | AtUnlock l =>
      if c_mu s then None
      else Some (mkPool true (c_repoLocks s) (heap s) (go (AtUnlockRepo l)))
  | AtUnlockRepo _ =>
      match c_repoLocks s !! key t with
      | Some l' =>
          match heap s !! l' with
          | Some true =>
              Some (mkPool (c_mu s) (c_repoLocks s) (<[l' := false]> (heap s))
                      (go AtUnlockMu))
          | _ => Some (mkPool (c_mu s) (c_repoLocks s) (heap s) (go Crashed))
          end
      | None => Some (mkPool (c_mu s) (c_repoLocks s) (heap s) (go Crashed))
      end
  | AtUnlockMu =>
      if c_mu s
      then Some (mkPool false (c_repoLocks s) (heap s) (go Returned))
      else Some (mkPool (c_mu s) (c_repoLocks s) (heap s) (go Crashed))
  | Returned | Crashed => None
  end.

(** One turn of the scheduler: a goroutine that cannot move stays. *)
Definition turn (t : nat) (s : Pool) : Pool :=
  match step t s with Some s' => s' | None => s end.

(** The pool after the goroutines have run in the order [sched]. *)
Fixpoint exec (sched : list nat) (s : Pool) : Pool :=
  match sched with
  | [] => s
  | t :: ts => exec ts (turn t s)
  end.

(** A local [mu] that is nil. *)
Definition nilRef (p : pc) : bool :=
  match p with
  | AtRelease None | AtAcquire None => true
  | _ => false
  end.

(** What holds of every pool that the goroutines can reach. *)
Record Inv (s : Pool) : Prop := mkInv {
  inv_reg_heap : forall k l, c_repoLocks s !! k = Some l -> is_Some (heap s !! l);
  inv_reg_inj : forall k1 k2 l,
    c_repoLocks s !! k1 = Some l -> c_repoLocks s !! k2 = Some l -> k1 = k2;
  inv_ref : forall t l, lockRef (pcs s t) = Some l -> c_repoLocks s !! key t = Some l;
  inv_ref_nil : forall t, nilRef (pcs s t) = false;
  inv_holds_excl : forall t1 t2 l,
    holds (pcs s t1) = Some l -> holds (pcs s t2) = Some l -> t1 = t2;
  inv_holds_locked : forall t l, holds (pcs s t) = Some l -> heap s !! l = Some true;
  inv_locked_held : forall l,
    heap s !! l = Some true -> exists t, holds (pcs s t) = Some l;
  inv_mu_excl : forall t1 t2,
    inRegistry (pcs s t1) = true -> inRegistry (pcs s t2) = true -> t1 = t2;
  inv_mu_held : forall t, inRegistry (pcs s t) = true -> c_mu s = true;
  inv_insert : forall t, pcs s t = AtInsert -> c_repoLocks s !! key t = None;
  inv_read : forall t, pcs s t = AtRead -> is_Some (c_repoLocks s !! key t);
  inv_nocrash : forall t, pcs s t <> Crashed
}.

End Interleaving.

(** The pool and the world of the sequential client are in the same lock
    state: the registry mutex, the registry and the mutexes agree. *)
Definition sameLocks {Ext} (s : Pool) (w : World Ext) : Prop :=
  c_mu s = mu w /\ c_repoLocks s = repoLocks w /\ heap s = mutexes w.

(** Three goroutines: the first two clone the same repository. *)
Definition simKey (t : nat) : string :=
  match t with
  | O | S O => "org/repo"
  | _ => "org/other"
  end.

(** The first goroutine enters the body of Clone, the second waits for
    the mutex, the third enters the body for its own repository. *)
Definition simSched : list nat :=
  [0; 0; 0; 0; 0; 0; 1; 1; 1; 1; 1; 1; 2; 2; 2; 2; 2; 2]%nat.

(** The world [w] after host operations that left the host in [x] and
    logged [evs]. *)
Definition upd {Ext} (w : World Ext) (x : Ext) (evs : list Event) : World Ext :=
  mkWorld x (mu w) (repoLocks w) (mutexes w) (events w ++ evs).

(** The warning of retryCommand after the failed attempt number [i]. *)
Definition warnEvent (lg : Logger) (i interval : Z) : Event :=
  EvLog WarnLevel
    ("command was failed " ++ fmt_d i ++ " times, sleep " ++ fmt_d interval
     ++ " seconds before retrying command")
    (lg_fields lg ++ []).

(** The events of a retry loop of [n] iterations from index [i] around a
    host operation [op] announced by the event [e]. *)
Fixpoint retryEvents {Ext} (n : nat) (i interval : Z) (lg : Logger) (e : Event)
    (op : Ext -> (string * option error) * Ext) (x : Ext) : list Event :=
  match n with
  | O => []
  | S n' =>
      match snd (fst (op x)) with
      | None => [e]
      | Some _ =>
          e :: warnEvent lg (i + 1) interval :: EvSleep interval
            :: retryEvents n' (i + 1) interval lg e op (snd (op x))
      end
  end.

(** A host operation with its errors replaced through [f]. *)
Definition mapErr {Ext} (f : error -> error)
    (op : Ext -> (string * option error) * Ext) (x : Ext)
  : (string * option error) * Ext :=
  ((fst (fst (op x)), option_map f (snd (fst (op x)))), snd (op x)).

(** Two host operations that differ at most in the errors of their failed
    calls: same output, same effect on the host, and a nil error from the
    one exactly when from the other. *)
Definition sameUpToErrors {Ext}
    (op op' : Ext -> (string * option error) * Ext) : Prop :=
  forall x : Ext,
    snd (op' x) = snd (op x)
    /\ fst (fst (op' x)) = fst (fst (op x))
    /\ isNil (snd (fst (op' x))) = isNil (snd (fst (op x))).

Section MirrorUpdate.
Context {Ext Ctx : Type} `{Host Ext Ctx}.
Variables (c : client) (ctx : Ctx) (base repoFullName : string).

(** The mirror of the repository is not on the disk. *)
Definition mirrorMissing (x : Ext) : bool :=
  os_IsNotExist (os_Stat (repoCachePath c repoFullName) x).

(** The mirror of the repository is on the disk. *)
Definition mirrorPresent (x : Ext) : bool :=
  isNil (os_Stat (repoCachePath c repoFullName) x).

(** The result of the os.MkdirAll of the parent directory of the mirror. *)
Definition parentDir (x : Ext) : option error * Ext :=
  os_MkdirAll (filepath_Dir (repoCachePath c repoFullName)) os_ModePerm x.

(** Clone goes on after that os.MkdirAll. *)
Definition parentReady (x : Ext) : bool :=
  isNil (fst (parentDir x)) || os_IsExist (fst (parentDir x)).

(** git clone --mirror <remote> <mirror> *)
Definition mirrorCloneOp : Ext -> (string * option error) * Ext :=
  exec_CombinedOutput ctx (gitPath c)
    ["clone"; "--mirror"; base ++ "/" ++ repoFullName; repoCachePath c repoFullName] "".

(** git fetch, run in the mirror *)
Definition fetchOp : Ext -> (string * option error) * Ext :=
  exec_CombinedOutput ctx (gitPath c) ["fetch"] (repoCachePath c repoFullName).

(** The command that updates the mirror from the host state [x], and the
    host state it is first run in. *)
Definition updateOp (x : Ext) : Ext -> (string * option error) * Ext :=
  if mirrorMissing x then mirrorCloneOp else fetchOp.

Definition updateStart (x : Ext) : Ext :=
  if mirrorMissing x then snd (parentDir x) else x.

(** The last attempt of the retried update of the mirror: its result and
    the host state it leaves. *)
Definition updateEnd (x : Ext) : (string * option error) * Ext :=
  nthCall (updateOp x) ("", None)
    (attempts (updateOp x) 3 (updateStart x)) (updateStart x).

(** Clone reaches the update of the mirror and the update succeeds. *)
Definition mirrorUpdated (x : Ext) : bool :=
  (mirrorPresent x || (mirrorMissing x && parentReady x))
  && isNil (snd (fst (updateEnd x))).

(** git clone <mirror> <destination> *)
Definition localCloneOp (destination : string)
  : Ext -> (string * option error) * Ext :=
  exec_CombinedOutput ctx (gitPath c)
    ["clone"; repoCachePath c repoFullName; destination] "".

(** After an os.RemoveAll of the directory [root] that returned nil,
    nothing below [root] exists. *)
Definition RemoveAll_removes (root : string) : Prop :=
  forall (p : string) (x : Ext),
    fst (os_RemoveAll root x) = None ->
    pathUnder root p = true ->
    os_IsNotExist (os_Stat p (snd (os_RemoveAll root x))) = true.

End MirrorUpdate.

(** ** Starting a client *)

(** The two host operations of NewClient. *)
Class Startup (Ext : Type) : Type := {
  (** exec.LookPath(file) *)
  exec_LookPath : string -> Ext -> string * option error;
  (** ioutil.TempDir(dir, prefix) *)
  ioutil_TempDir : string -> string -> Ext -> (string * option error) * Ext
}.

(** func NewClient(username, email, logger): on success the process runs
    the new client, with its free [mu] and its empty [repoLocks]. *)
Definition NewClient {Ext} `{Startup Ext} (username email : string) (lg : Logger)
  : M Ext (option client * option error) :=
  fun w =>
    let '(gitPath, err) := exec_LookPath "git" (host w) in
    match err with
    | Some e =>
        (Ret (None, Some (fmt_Errorf_v "unabled to find the path of git" e)), w)
    | None =>
        let '((cacheDir, err), x) := ioutil_TempDir "" "gitcache" (host w) in
        match err with
        | Some e =>
            (Ret (None,
                  Some (fmt_Errorf_v
                          "unabled to create a temporary directory for git cache" e)),
             mkWorld x (mu w) (repoLocks w) (mutexes w) (events w))
        | None =>
            (Ret (Some (mkClient username email gitPath cacheDir lg), None),
             mkWorld x false ∅ ∅ (events w))
        end
    end.

(** No call is under way: the registry mutex and every mutex of the
    registry are unlocked. *)
Definition locksIdle {Ext} (w : World Ext) : Prop :=
  mu w = false /\
  forall k l, repoLocks w !! k = Some l -> mutexes w !! l = Some false.

(** The git commands that Clone can run for a repository. *)
Definition cloneCommand (c : client) (base repoFullName destination : string)
    (e : Event) : Prop :=
  e = EvGit "" ["clone"; "--mirror"; base ++ "/" ++ repoFullName;
                filepath_Join [cacheDir c; repoFullName] ++ ".git"]
  \/ e = EvGit (filepath_Join [cacheDir c; repoFullName] ++ ".git") ["fetch"]
  \/ e = EvGit "" ["clone"; filepath_Join [cacheDir c; repoFullName] ++ ".git";
                   destination].

(** The scripted host finds git and makes always the same directory. *)
#[export] Instance simStartup : Startup Sim := {
  exec_LookPath _ _ := ("/usr/bin/git", None);
  ioutil_TempDir _ _ x := (("/tmp/gitcache1", None), sim_create "/tmp/gitcache1" x)
}.

(** How far a goroutine is from the end of its call. *)
Definition rank (p : pc) : nat :=
  match p with
  | AtLock => 10
  | AtCheck => 9
  | AtInsert => 8
  | AtRead => 7
  | AtRelease _ => 6
  | AtAcquire _ => 5
  | InBody _ => 4
  | AtUnlock _ => 3
  | AtUnlockRepo _ => 2
  | AtUnlockMu => 1
  | Returned | Crashed => 0
  end%nat.

(** A locked registry mutex was locked by a goroutine that is still
    between c.mu.Lock() and c.mu.Unlock(). *)
Definition muOwned (s : Pool) : Prop :=
  c_mu s = true -> exists u, inRegistry (pcs s u) = true.

(** The goroutine is in no call: it has not called Clone yet or has
    returned. *)
Definition outside (p : pc) : bool :=
  match p with
  | AtLock | Returned => true
  | _ => false
  end.

(** * Properties *)

(** ** Strings and paths *)

Lemma genSplit_byte (c a : ascii) (s : string) :
  genSplit (String c "") 0 (String a s) =
  if Ascii.eqb c a then "" :: genSplit (String c "") 0 s
  else match genSplit (String c "") 0 s with
       | p :: ps => String a p :: ps
       | [] => [String a ""]
       end.
Proof.
  simpl. destruct (Ascii.eqb c a); reflexivity.
Qed.

Lemma genSplit_byte_cons (c : ascii) (s : string) :
  exists p ps, genSplit (String c "") 0 s = p :: ps.
Proof.
  induction s as [|a s IH].
  - simpl. eauto.
  - rewrite genSplit_byte. destruct (Ascii.eqb c a); [eauto|].
    destruct IH as (p & ps & ->). eauto.
Qed.

(** The first field of a split on tabs is the text before the first tab. *)
Lemma Split_tab_head (out : string) :
  exists ps, strings_Split out (String tab "") = beforeTab out :: ps.
Proof.
  unfold strings_Split. induction out as [|a s IH].
  - simpl. eauto.
  - rewrite genSplit_byte. cbn [beforeTab]. rewrite (Ascii.eqb_sym tab a).
    destruct (Ascii.eqb a tab); [eauto|].
    destruct IH as (ps & ->). eauto.
Qed.

Lemma beforeTab_prefix (out : string) :
  hasTab (beforeTab out) = false /\
  (beforeTab out = out \/
   exists rest, out = beforeTab out ++ String tab rest).
Proof.
  induction out as [|a s [IH1 IH2]]; simpl.
  - auto.
  - destruct (Ascii.eqb a tab) eqn:E; simpl.
    + split; [reflexivity|]. right. apply Ascii.eqb_eq in E. subst. eauto.
    + rewrite E. split; [exact IH1|].
      destruct IH2 as [IH2|(rest & IH2)].
      * left. congruence.
      * right. exists rest. simpl. congruence.
Qed.

Lemma beforeTab_noTab (out : string) : hasTab out = false -> beforeTab out = out.
Proof.
  induction out as [|a s IH]; simpl; [reflexivity|].
  destruct (Ascii.eqb a tab); simpl; [discriminate|].
  intros E. f_equal. auto.
Qed.

Lemma append_assoc (a b c : string) : (a ++ b) ++ c = a ++ (b ++ c).
Proof. induction a as [|x a IH]; simpl; [reflexivity|]. now rewrite IH. Qed.

Lemma HasPrefix_append (a b : string) : strings_HasPrefix (a ++ b) a = true.
Proof.
  induction a as [|x a IH]; simpl; [reflexivity|].
  now rewrite Ascii.eqb_refl, IH.
Qed.

Lemma Split_slash_cons (a : ascii) (s : string) :
  strings_Split (String a s) "/" =
  if Ascii.eqb slash a then "" :: strings_Split s "/"
  else match strings_Split s "/" with
       | p :: ps => String a p :: ps
       | [] => [String a ""]
       end.
Proof. unfold strings_Split. apply genSplit_byte. Qed.

Lemma Split_slash_nonempty (s : string) :
  exists p ps, strings_Split s "/" = p :: ps.
Proof. unfold strings_Split. apply genSplit_byte_cons. Qed.

Lemma Split_slash_app (a b : string) :
  strings_Split (a ++ String slash b) "/"
  = (strings_Split a "/" ++ strings_Split b "/")%list.
Proof.
  induction a as [|x a IH].
  - simpl String.append. rewrite Split_slash_cons. reflexivity.
  - simpl String.append. rewrite !Split_slash_cons, IH.
    destruct (Ascii.eqb slash x); [reflexivity|].
    destruct (Split_slash_nonempty a) as (p & ps & E).
    rewrite E. reflexivity.
Qed.

Lemma Join_Split_slash (s : string) :
  strings_Join (strings_Split s "/") "/" = s.
Proof.
  unfold strings_Join. induction s as [|x s IH]; [reflexivity|].
  rewrite Split_slash_cons.
  destruct (Split_slash_nonempty s) as (p & ps & E).
  rewrite E in *.
  destruct (Ascii.eqb slash x) eqn:Ex.
  - apply Ascii.eqb_eq in Ex. subst x. rewrite <- IH. reflexivity.
  - rewrite <- IH. destruct ps; reflexivity.
Qed.

Lemma cleanElems_plain (rooted : bool) (es stack : list string) :
  forallb plainElem es = true ->
  cleanElems rooted stack es = (rev stack ++ es)%list.
Proof.
  revert stack. induction es as [|e es IH]; intros stack Hp; simpl.
  - now rewrite app_nil_r.
  - simpl in Hp. apply andb_prop in Hp as [He Hes]. unfold plainElem in He.
    destruct (String.eqb e ""); [discriminate|].
    destruct (String.eqb e "."); [discriminate|].
    destruct (String.eqb e ".."); [discriminate|]. simpl.
    rewrite IH by assumption. simpl. now rewrite <- app_assoc.
Qed.

(** For a clean cache directory and a clean repository name, filepath.Join
    is the concatenation with one slash. *)
Lemma Join_clean (root name : string) :
  cleanAbs root = true -> cleanRel name = true ->
  filepath_Join [root; name] = root ++ "/" ++ name.
Proof.
  destruct root as [|c d]; [discriminate|]. simpl cleanAbs.
  intros Hr Hn. apply andb_prop in Hr as [Hc Hd].
  apply Ascii.eqb_eq in Hc. subst c. unfold cleanRel in *.
  cbn [filepath_Join]. replace (String.eqb (String slash d) "") with false by reflexivity.
  cbv [strings_Join]. cbn [String.concat].
  change (String slash d ++ "/" ++ name) with (String slash (d ++ String slash name)).
  unfold filepath_Clean. rewrite Ascii.eqb_refl.
  rewrite Split_slash_cons, Ascii.eqb_refl. cbn [cleanElems].
  replace (String.eqb "" "" || String.eqb "" ".") with true by reflexivity.
  rewrite Split_slash_app.
  rewrite cleanElems_plain by (rewrite forallb_app, Hd, Hn; reflexivity).
  cbn [rev app]. rewrite <- Split_slash_app, Join_Split_slash. reflexivity.
Qed.

(** The mirror of a clean repository name is below a clean cache root. *)
Lemma repoCachePath_under (c : client) (repoFullName : string) :
  cleanAbs (cacheDir c) = true -> cleanRel repoFullName = true ->
  pathUnder (cacheDir c) (repoCachePath c repoFullName) = true.
Proof.
  intros Hr Hn. unfold repoCachePath, pathUnder.
  rewrite (Join_clean _ _ Hr Hn), !append_assoc.
  rewrite <- (append_assoc (cacheDir c) "/"). apply HasPrefix_append.
Qed.

(** C5, as amended: the mirror of a repository is the directory
    <cache root>/<repository full name>.git: the path that filepath.Join
    makes of the cache root and the full name, with the suffix .git. For a
    clean absolute cache root and a clean relative full name no other
    element or suffix is added. *)
Theorem repoCachePath_layout (c : client) (repoFullName : string) :
  cleanAbs (cacheDir c) = true -> cleanRel repoFullName = true ->
  repoCachePath c repoFullName = cacheDir c ++ "/" ++ repoFullName ++ ".git"
  /\ pathUnder (cacheDir c) (repoCachePath c repoFullName) = true.
Proof.
  intros Hr Hn. unfold repoCachePath, pathUnder.
  rewrite (Join_clean _ _ Hr Hn), !append_assoc. split; [reflexivity|].
  rewrite <- (append_assoc (cacheDir c) "/"). apply HasPrefix_append.
Qed.

Lemma repoCachePath_layout_witness :
  repoCachePath simClient "org/repo" = "/tmp/gitcache1/org/repo.git"
  /\ pathUnder (cacheDir simClient) (repoCachePath simClient "org/repo") = true.
Proof. apply (repoCachePath_layout simClient "org/repo"); reflexivity. Defined.

(** C5 as stated fails: the mirror of org/repo is not at
    <cache root>/org/repo. *)
Lemma repoCachePath_not_bare :
  repoCachePath simClient "org/repo" <> cacheDir simClient ++ "/" ++ "org/repo".
Proof. vm_compute. discriminate. Qed.

(** ** Worlds and the retry loop *)

Section RetryFacts.
Context {Ext Ctx : Type} `{Host Ext Ctx}.
Implicit Types (w : World Ext) (x : Ext) (evs : list Event).

Lemma upd_upd w x evs x' evs' :
  upd (upd w x evs) x' evs' = upd w x' (evs ++ evs').
Proof. unfold upd; simpl. now rewrite <- app_assoc. Qed.

Lemma upd_id w : upd w (host w) [] = w.
Proof. destruct w; unfold upd; simpl. now rewrite app_nil_r. Qed.

Lemma added_upd w x evs : added w (upd w x evs) = evs.
Proof. unfold added, upd; simpl. apply drop_app_length. Qed.

Lemma emit_upd (e : Event) w : emit e w = (Ret tt, upd w (host w) [e]).
Proof. reflexivity. Qed.

Lemma hostOp_upd {A} (e : Event) (op : Ext -> A * Ext) w :
  hostOp e op w = (Ret (fst (op (host w))), upd w (snd (op (host w))) [e]).
Proof. unfold hostOp. destruct (op (host w)); reflexivity. Qed.

Lemma count_app (p : Event -> bool) evs evs' :
  count p (evs ++ evs') = (count p evs + count p evs')%nat.
Proof. unfold count. now rewrite List.filter_app, List.length_app. Qed.

Lemma count_nil (p : Event -> bool) : count p [] = O.
Proof. reflexivity. Qed.

Lemma count_cons (p : Event -> bool) (e : Event) evs :
  count p (e :: evs) = ((if p e then 1 else 0) + count p evs)%nat.
Proof. unfold count; simpl. destruct (p e); reflexivity. Qed.

Variable op : Ext -> (string * option error) * Ext.

Lemma nthCall_shift (d : string * option error) (k : nat) x :
  nthCall op d (S k) x = nthCall op (fst (op x)) k (snd (op x)).
Proof.
  induction k as [|k IH].
  - simpl. now destruct (op x).
  - change (nthCall op d (S (S k)) x) with (op (snd (nthCall op d (S k) x))).
    rewrite IH. reflexivity.
Qed.

Lemma attempts_bound (n : nat) x : (attempts op n x <= n)%nat.
Proof.
  revert x. induction n as [|n IH]; intros x; simpl; [lia|].
  destruct (snd (fst (op x))); [specialize (IH (snd (op x)))|]; lia.
Qed.

Lemma attempts_pos (n : nat) x : (1 <= n)%nat -> (1 <= attempts op n x)%nat.
Proof. destruct n; simpl; [lia|]. destruct (snd (fst (op x))); lia. Qed.

(** The attempts before the last one failed. *)
Lemma attempts_earlier (n : nat) x (d : string * option error) (j : nat) :
  (1 <= j < attempts op n x)%nat -> snd (fst (nthCall op d j x)) <> None.
Proof.
  revert x d j. induction n as [|n IH]; intros x d j Hj; simpl in Hj; [lia|].
  destruct (snd (fst (op x))) eqn:E; [|lia].
  destruct j as [|j]; [lia|]. rewrite nthCall_shift.
  destruct j as [|j]; [simpl; congruence|].
  apply IH. lia.
Qed.

(** The last attempt succeeded, or the budget is used up. *)
Lemma attempts_last (n : nat) x (d : string * option error) :
  snd (fst (nthCall op d (attempts op n x) x)) = None
  \/ attempts op n x = n.
Proof.
  revert x d. induction n as [|n IH]; intros x d; simpl; [now right|].
  destruct (snd (fst (op x))) eqn:E.
  - rewrite nthCall_shift.
    destruct (IH (snd (op x)) (fst (op x))) as [IH'|IH']; [now left|].
    right. congruence.
  - left. exact E.
Qed.

(** What the loop returns, where it leaves the host and what it logs. *)
Lemma retryLoop_run (n : nat) (i iv : Z) (lg : Logger) (e : Event)
    (last : string * option error) w :
  retryLoop n i iv lg (hostOp e op) last w =
  (Ret (fst (nthCall op last (attempts op n (host w)) (host w))),
   upd w (snd (nthCall op last (attempts op n (host w)) (host w)))
     (retryEvents n i iv lg e op (host w))).
Proof.
  revert i last w. induction n as [|n IH]; intros i last w.
  - simpl. now rewrite upd_id.
  - cbn [retryLoop attempts retryEvents]. unfold bind at 1. rewrite hostOp_upd.
    destruct (snd (fst (op (host w)))) eqn:E.
    + unfold Logger_log, time_Sleep. unfold bind at 1. rewrite emit_upd.
      unfold bind at 1. rewrite emit_upd, !upd_upd, IH, upd_upd.
      cbn [host upd]. rewrite nthCall_shift. reflexivity.
    + unfold ret. simpl. now destruct (op (host w)).
Qed.

Lemma retryCommand_run (retries iv : Z) (lg : Logger) (e : Event) w :
  retryCommand retries iv lg (hostOp e op) w =
  (Ret (fst (nthCall op ("", None) (attempts op (Z.to_nat retries) (host w)) (host w))),
   upd w (snd (nthCall op ("", None) (attempts op (Z.to_nat retries) (host w)) (host w)))
     (retryEvents (Z.to_nat retries) 0 iv lg e op (host w))).
Proof. apply retryLoop_run. Qed.

(** One [e] per attempt; warnings and sleeps are not counted by a
    predicate that is false on them. *)
Lemma count_retryEvents (p : Event -> bool) (n : nat) (i iv : Z) (lg : Logger)
    (e : Event) x :
  (forall j, p (warnEvent lg j iv) = false) -> p (EvSleep iv) = false ->
  count p (retryEvents n i iv lg e op x)
  = if p e then attempts op n x else O.
Proof.
  intros Hw Hs. revert i x. induction n as [|n IH]; intros i x; simpl.
  - now destruct (p e).
  - destruct (snd (fst (op x))).
    + rewrite !count_cons, Hw, Hs, IH. destruct (p e); reflexivity.
    + rewrite count_cons. unfold count; simpl. destruct (p e); reflexivity.
  Qed.

(** The failed attempts of a loop: all of them but a successful last one. *)
Lemma count_retryEvents_failed (p : Event -> bool) (n : nat) (i iv : Z)
    (lg : Logger) (e : Event) (d : string * option error) x :
  p e = false ->
  ((forall j, p (warnEvent lg j iv) = true) /\ p (EvSleep iv) = false
   \/ (forall j, p (warnEvent lg j iv) = false) /\ p (EvSleep iv) = true) ->
  snd d <> None ->
  count p (retryEvents n i iv lg e op x)
  = (attempts op n x
     - if isNil (snd (fst (nthCall op d (attempts op n x) x))) then 1 else 0)%nat.
Proof.
  intros He Hp. revert i d x. induction n as [|n IH]; intros i d x Hd.
  - simpl. destruct (snd d); [reflexivity|congruence].
  - cbn [retryEvents attempts]. destruct (snd (fst (op x))) as [err|] eqn:E.
    + rewrite nthCall_shift.
      rewrite !count_cons, He, (IH (i + 1) (fst (op x)) (snd (op x)))
        by (rewrite E; discriminate).
      assert (Hone : ((if p (warnEvent lg (i + 1) iv) then 1 else 0)
                      + (if p (EvSleep iv) then 1 else 0) = 1)%nat).
      { destruct Hp as [[Hw ->]|[Hw ->]]; now rewrite Hw. }
      destruct (attempts op n (snd (op x))) as [|k] eqn:Ek.
      * cbn [nthCall fst]. rewrite E. cbn [isNil]. lia.
      * destruct (isNil _); lia.
    + cbn [nthCall snd]. rewrite E. cbn [isNil].
      rewrite count_cons, count_nil, He. reflexivity.
Qed.

(** The same from the start of retryCommand. *)
Lemma count_retryEvents_top (p : Event -> bool) (n : nat) (iv : Z)
    (lg : Logger) (e : Event) x :
  (1 <= n)%nat -> p e = false ->
  ((forall j, p (warnEvent lg j iv) = true) /\ p (EvSleep iv) = false
   \/ (forall j, p (warnEvent lg j iv) = false) /\ p (EvSleep iv) = true) ->
  count p (retryEvents n 0 iv lg e op x)
  = (attempts op n x
     - if isNil (snd (fst (nthCall op ("", None) (attempts op n x) x)))
       then 1 else 0)%nat.
Proof.
  intros Hn He Hp. destruct n as [|n]; [lia|].
  cbn [retryEvents attempts]. destruct (snd (fst (op x))) as [err|] eqn:E.
  - rewrite nthCall_shift, !count_cons, He.
    rewrite (count_retryEvents_failed p n (0 + 1) iv lg e (fst (op x))
               (snd (op x)) He Hp)
      by (rewrite E; discriminate).
    assert (Hone : ((if p (warnEvent lg (0 + 1) iv) then 1 else 0)
                    + (if p (EvSleep iv) then 1 else 0) = 1)%nat).
    { destruct Hp as [[Hw ->]|[Hw ->]]; now rewrite Hw. }
    destruct (attempts op n (snd (op x))) as [|k'] eqn:Ek.
    + cbn [nthCall fst]. rewrite E. cbn [isNil]. lia.
    + destruct (isNil _); lia.
  - cbn [nthCall snd]. rewrite E. cbn [isNil].
    rewrite count_cons, count_nil, He. reflexivity.
Qed.

(** Where the events of the attempt number [j + 1] are in the log of a
    loop: the command, and after a failure the warning and the sleep. *)
Lemma retryEvents_at (n : nat) (i iv : Z) (lg : Logger) (e : Event)
    (d : string * option error) x (j : nat) :
  (j < attempts op n x)%nat ->
  retryEvents n i iv lg e op x !! (3 * j)%nat = Some e
  /\ forall err, snd (fst (nthCall op d (S j) x)) = Some err ->
       retryEvents n i iv lg e op x !! (3 * j + 1)%nat
       = Some (warnEvent lg (i + Z.of_nat (S j)) iv)
       /\ retryEvents n i iv lg e op x !! (3 * j + 2)%nat = Some (EvSleep iv).
Proof.
  revert i d x j. induction n as [|n IH]; intros i d x j Hj; cbn [attempts] in Hj;
    [lia|].
  cbn [retryEvents]. destruct (snd (fst (op x))) as [err0|] eqn:E.
  - destruct j as [|j].
    + split; [reflexivity|]. intros err _. split; [|reflexivity].
      cbn. reflexivity.
    + rewrite nthCall_shift.
      replace (3 * S j)%nat with (S (S (S (3 * j)))) by lia.
      cbn [Nat.add lookup list_lookup].
      destruct (IH (i + 1) (fst (op x)) (snd (op x)) j ltac:(lia)) as [He Hw].
      split; [exact He|]. intros err Herr. destruct (Hw err Herr) as [H1 H2].
      replace (i + Z.of_nat (S (S j))) with (i + 1 + Z.of_nat (S j)) by lia.
      split; assumption.
  - assert (j = O) as -> by lia. split; [reflexivity|].
    intros err Herr. cbn [nthCall snd] in Herr. congruence.
Qed.

End RetryFacts.

(** Two operations that differ in their errors only make a loop run the
    same way. *)
Lemma sameUpToErrors_run {Ext} (op op' : Ext -> (string * option error) * Ext)
    (n : nat) (i iv : Z) (lg : Logger) (e : Event) (x : Ext) :
  sameUpToErrors op op' ->
  attempts op' n x = attempts op n x
  /\ retryEvents n i iv lg e op' x = retryEvents n i iv lg e op x.
Proof.
  intros Hrel. revert i x. induction n as [|n IH]; intros i x; [now split|].
  cbn [attempts retryEvents]. destruct (Hrel x) as (Hx & _ & Hnil).
  destruct (IH (i + 1) (snd (op x))) as [Ha He]. rewrite Hx.
  destruct (snd (fst (op' x))), (snd (fst (op x))); try discriminate.
  - now rewrite Ha, He.
  - now split.
Qed.

Lemma sameUpToErrors_nthCall {Ext}
    (op op' : Ext -> (string * option error) * Ext)
    (d : string * option error) (j : nat) (x : Ext) :
  sameUpToErrors op op' ->
  snd (nthCall op' d j x) = snd (nthCall op d j x)
  /\ fst (fst (nthCall op' d j x)) = fst (fst (nthCall op d j x))
  /\ isNil (snd (fst (nthCall op' d j x))) = isNil (snd (fst (nthCall op d j x))).
Proof.
  intros Hrel. induction j as [|j IH]; [now repeat split|].
  cbn [nthCall]. destruct IH as (-> & _). apply Hrel.
Qed.

Lemma mapErr_sameUpToErrors {Ext} (f : error -> error)
    (op : Ext -> (string * option error) * Ext) :
  sameUpToErrors op (mapErr f op).
Proof.
  intros x. unfold mapErr. cbn [fst snd].
  now destruct (snd (fst (op x))).
Qed.

(** Counting the events of an explicit list. *)
Ltac count_events :=
  rewrite ?count_app, ?count_cons, ?count_nil;
  rewrite ?count_retryEvents by reflexivity;
  cbn [isFetch isMirrorClone isGit isRemoveAll isLocalClone isWarn isSleep
       isSetUser String.eqb Ascii.eqb Bool.eqb andb].

(** ** retryCommand *)

Section RetryContract.
Context {Ext Ctx : Type} `{Host Ext Ctx}.

(** C2: with a budget of at least one attempt, retryCommand calls the
    operation until a call returns a nil error or the budget is used up,
    and returns the output and error of the last call, whatever they
    are.  With a budget of three and an operation that fails twice and
    then succeeds, it returns the third result with a nil error, logs
    two warnings and the third call is the last event: nothing is slept
    after it. *)
Theorem retryCommand_contract (retries iv : Z) (lg : Logger) (e : Event)
    (op : Ext -> (string * option error) * Ext) (w : World Ext) :
  1 <= retries -> isGit e = true ->
  let n := Z.to_nat retries in
  let k := attempts op n (host w) in
  let last := nthCall op ("", None) k (host w) in
  let res := retryCommand retries iv lg (hostOp e op) w in
  (1 <= k <= n)%nat /\
  (forall j, (1 <= j < k)%nat ->
     snd (fst (nthCall op ("", None) j (host w))) <> None) /\
  (snd (fst last) = None \/ k = n) /\
  fst res = Ret (fst last) /\
  host (snd res) = snd last /\
  count isGit (added w (snd res)) = k /\
  (retries = 3 ->
   forall o1 e1 x1 o2 e2 x2 o3 x3,
     op (host w) = ((o1, Some e1), x1) ->
     op x1 = ((o2, Some e2), x2) ->
     op x2 = ((o3, None), x3) ->
     fst res = Ret (o3, None) /\
     count isWarn (added w (snd res)) = 2%nat /\
     added w (snd res) =
       [e; warnEvent lg 1 iv; EvSleep iv; e; warnEvent lg 2 iv; EvSleep iv; e]).
Proof.
  intros Hn He n k last res. subst res. rewrite retryCommand_run.
  cbn [fst snd]. rewrite added_upd. cbn [host upd]. fold n. fold k. fold last.
  split; [|split; [|split; [|split; [|split; [|split]]]]].
  - split; [apply attempts_pos; lia|apply attempts_bound].
  - intros j Hj. now apply attempts_earlier with (n := n).
  - apply attempts_last.
  - reflexivity.
  - reflexivity.
  - rewrite count_retryEvents by reflexivity. now rewrite He.
  - intros -> o1 e1 x1 o2 e2 x2 o3 x3 H1 H2 H3.
    subst last k n. change (Z.to_nat 3) with 3%nat.
    cbn [attempts retryEvents nthCall]. rewrite H1. cbn [fst snd].
    rewrite H2. cbn [fst snd]. rewrite H3. cbn [fst snd nthCall].
    rewrite H1. cbn [fst snd]. rewrite H2. cbn [fst snd]. rewrite H3.
    cbn [fst snd]. split; [reflexivity|]. split; [|reflexivity].
    rewrite !count_cons. destruct e; try discriminate. reflexivity.
Qed.

(** C8, as amended: retryCommand does not look at the kind of an error.
    An attempt that fails, with a cancellation or with anything else, is
    followed by the warning with its number and by the sleep, and while
    the budget lasts by the next call of the operation; the result of the
    last call made is returned and the host is left as that call left it.
    Replacing the errors of the failed calls by others, cancellations
    included, changes nothing but the error returned: the same calls, the
    same log, the same host and the same output. *)
Theorem retryCommand_cancel_as_failure (retries iv : Z) (lg : Logger)
    (e : Event) (op op' : Ext -> (string * option error) * Ext)
    (w : World Ext) :
  1 <= retries -> isGit e = true -> sameUpToErrors op op' ->
  let n := Z.to_nat retries in
  let res := retryCommand retries iv lg (hostOp e op) w in
  let res' := retryCommand retries iv lg (hostOp e op') w in
  let evs := added w (snd res) in
  let k := count isGit evs in
  let call j := nthCall op ("", None) j (host w) in
  (1 <= k <= n)%nat
  /\ (forall j, (j < k)%nat ->
        evs !! (3 * j)%nat = Some e
        /\ forall err, snd (fst (call (S j))) = Some err ->
             evs !! (3 * j + 1)%nat = Some (warnEvent lg (Z.of_nat (S j)) iv)
             /\ evs !! (3 * j + 2)%nat = Some (EvSleep iv)
             /\ ((S j < n)%nat -> (S j < k)%nat))
  /\ fst res = Ret (fst (call k))
  /\ host (snd res) = snd (call k)
  /\ count isWarn evs = count isSleep evs
  /\ count isSleep evs = (k - if isNil (snd (fst (call k))) then 1 else 0)%nat
  /\ snd res' = snd res
  /\ fst res' = Ret (fst (nthCall op' ("", None) k (host w)))
  /\ fst (fst (nthCall op' ("", None) k (host w))) = fst (fst (call k))
  /\ isNil (snd (fst (nthCall op' ("", None) k (host w))))
     = isNil (snd (fst (call k))).
Proof.
  intros Hn He Hrel n res res' evs k call.
  assert (Hpos : (1 <= n)%nat) by (subst n; lia).
  assert (Ek : k = attempts op n (host w)).
  { subst k evs res. rewrite retryCommand_run. cbn [snd]. rewrite added_upd.
    rewrite count_retryEvents by reflexivity. now rewrite He. }
  assert (Eevs : evs = retryEvents n 0 iv lg e op (host w)).
  { subst evs res. rewrite retryCommand_run. cbn [snd]. now rewrite added_upd. }
  assert (Hge : isWarn e = false /\ isSleep e = false)
    by (destruct e; try discriminate; auto).
  destruct Hge as [Hw Hs].
  destruct (sameUpToErrors_run op op' n 0 iv lg e (host w) Hrel) as [Ha' He'].
  destruct (sameUpToErrors_nthCall op op' ("", None) k (host w) Hrel)
    as (Hx' & Ho' & Hn').
  rewrite Ek in *. clear Ek. rewrite Eevs. clear Eevs.
  split; [split; [now apply attempts_pos|apply attempts_bound]|].
  split; [|split; [|split; [|split; [|split; [|split; [|split; [|split]]]]]]].
  - intros j Hj.
    destruct (retryEvents_at op n 0 iv lg e ("", None) (host w) j Hj) as [H0 Hf].
    split; [exact H0|]. intros err Herr. destruct (Hf err Herr) as [H1 H2].
    split; [exact H1|]. split; [exact H2|]. intros Hlt.
    destruct (attempts_last op n (host w) ("", None)) as [Hok|Hall]; [|lia].
    destruct (Nat.eq_dec (S j) (attempts op n (host w))) as [Eq|Ne]; [|lia].
    rewrite <- Eq in Hok. unfold call in Herr. congruence.
  - subst res. now rewrite retryCommand_run.
  - subst res. now rewrite retryCommand_run.
  - rewrite !(count_retryEvents_top op) by
      (try assumption;
       first [left; split; [reflexivity|reflexivity]
             |right; split; [reflexivity|reflexivity]]).
    reflexivity.
  - apply (count_retryEvents_top op); [assumption..|].
    right. split; reflexivity.
  - subst res res'. rewrite !retryCommand_run. cbn [snd]. fold n.
    now rewrite Ha', He', Hx'.
  - subst res'. rewrite retryCommand_run. cbn [fst]. fold n. now rewrite Ha'.
  - exact Ho'.
  - exact Hn'.
Qed.

End RetryContract.

Lemma retryCommand_contract_witness :
  outcomeOf
    (retryCommand 3 time_Second (mkLogger [])
       (hostOp (EvGit "" ["fetch"]) (sim_exec ["fetch"]))
       (simWorld [] [("e1", Some (ExitError 1)); ("e2", Some (ExitError 1));
                     ("ok", None)]))
  = Ret ("ok", None).
Proof.
  pose proof (retryCommand_contract 3 time_Second (mkLogger [])
                (EvGit "" ["fetch"]) (sim_exec ["fetch"])
                (simWorld [] [("e1", Some (ExitError 1)); ("e2", Some (ExitError 1));
                              ("ok", None)])
                ltac:(lia) eq_refl) as HC.
  cbv zeta in HC.
  destruct HC as (_ & _ & _ & _ & _ & _ & HC).
  destruct (HC eq_refl _ _ _ _ _ _ _ _ eq_refl eq_refl eq_refl) as (Hres & _).
  exact Hres.
Defined.

Lemma retryCommand_cancel_as_failure_witness :
  let w := simWorld [] [("", Some context_Canceled); ("", Some context_Canceled);
                        ("ok", None)] in
  let res := retryCommand 3 time_Second (mkLogger [])
               (hostOp (EvGit "" ["fetch"]) (sim_exec ["fetch"])) w in
  count isGit (added w (snd res)) = 3%nat
  /\ fst res = Ret (fst (nthCall (sim_exec ["fetch"]) ("", None) 3 (host w))).
Proof.
  intros w res.
  pose proof (retryCommand_cancel_as_failure 3 time_Second (mkLogger [])
                (EvGit "" ["fetch"]) (sim_exec ["fetch"])
                (mapErr (fun _ => ExitError 1) (sim_exec ["fetch"])) w
                ltac:(lia) eq_refl (mapErr_sameUpToErrors _ _)) as HC.
  cbv zeta in HC. fold res in HC.
  destruct HC as (Hk & Hstep & Hres & _).
  assert (H3 : count isGit (added w (snd res)) = 3%nat).
  { change (Z.to_nat 3) with 3%nat in *.
    destruct (Hstep 0%nat ltac:(lia)) as [_ H1].
    destruct (H1 context_Canceled ltac:(vm_compute; reflexivity))
      as (_ & _ & Hk1).
    specialize (Hk1 ltac:(lia)).
    destruct (Hstep 1%nat Hk1) as [_ H2].
    destruct (H2 context_Canceled ltac:(vm_compute; reflexivity))
      as (_ & _ & Hk2).
    specialize (Hk2 ltac:(lia)). lia. }
  split; [exact H3|]. rewrite Hres, H3. reflexivity.
Defined.

(** C8 as stated fails: every attempt ends with a cancellation, and the
    command is still run three times. *)
Lemma retryCommand_retries_cancelled :
  let w0 := simWorld [] [("", Some context_Canceled); ("", Some context_Canceled);
                         ("", Some context_Canceled)] in
  let res := retryCommand 3 time_Second (mkLogger [])
               (runGitCommand simClient tt "" ["ls-remote"; "refs/heads/main"]) w0 in
  snd (fst (sim_exec ["ls-remote"; "refs/heads/main"] (host w0)))
    = Some context_Canceled
  /\ outcomeOf res = Ret ("", Some context_Canceled)
  /\ count isGit (added w0 (worldOf res)) = 3%nat
  /\ count isGit (added w0 (worldOf res)) <> 1%nat.
Proof. vm_compute. repeat split; discriminate. Qed.

(** ** GetLatestRemoteHashForBranch *)

Section RemoteHash.
Context {Ext Ctx : Type} `{Host Ext Ctx}.

Lemma GetLatest_after_listing (c : client) (ctx : Ctx) (remote branch : string)
    (w w1 : World Ext) (out : string) (err : option error) :
  retryCommand 3 time_Second (logger c)
    (runGitCommand c ctx "" ["ls-remote"; "refs/heads/" ++ branch]) w
  = (Ret (out, err), w1) ->
  GetLatestRemoteHashForBranch c ctx remote branch w =
  match err with
  | None => (Ret (beforeTab out, None), w1)
  | Some e =>
      (Ret ("", Some e),
       upd w1 (host w1)
         [EvLog ErrorLevel "failed to get latest remote hash for branch"
            (lg_fields (logger c) ++
             [("remote", remote); ("branch", branch); ("out", out);
              ("error", Error e)])])
  end.
Proof.
  unfold GetLatestRemoteHashForBranch. intros E.
  unfold bind at 1. rewrite E. destruct err as [e|].
  - reflexivity.
  - destruct (Split_tab_head out) as (ps & ->). reflexivity.
Qed.

Lemma listing_run (c : client) (ctx : Ctx) (branch : string) (w : World Ext) :
  let op := exec_CombinedOutput ctx (gitPath c)
              ["ls-remote"; "refs/heads/" ++ branch] "" in
  let k := attempts op 3 (host w) in
  retryCommand 3 time_Second (logger c)
    (runGitCommand c ctx "" ["ls-remote"; "refs/heads/" ++ branch]) w =
  (Ret (fst (nthCall op ("", None) k (host w))),
   upd w (snd (nthCall op ("", None) k (host w)))
     (retryEvents 3 0 time_Second (logger c)
        (EvGit "" ["ls-remote"; "refs/heads/" ++ branch]) op (host w))).
Proof. apply retryCommand_run. Qed.

Lemma In_retryEvents (ev e : Event) (n : nat) (i iv : Z) (lg : Logger)
    (op : Ext -> (string * option error) * Ext) (x : Ext) :
  In ev (retryEvents n i iv lg e op x) -> ev = e \/ isGit ev = false.
Proof.
  revert i x. induction n as [|n IH]; intros i x; simpl; [tauto|].
  destruct (snd (fst (op x))); simpl.
  - intros [<-|[<-|[<-|Hin]]]; eauto.
  - intros [<-|[]]. now left.
Qed.

(** C3, as amended: when the listing succeeds,
    GetLatestRemoteHashForBranch returns, with a nil error, everything
    before the first tab of the output, and the whole output as it is,
    not trimmed, when it has no tab; on the output
    "abc123deadbeef<tab>refs/heads/main<newline>" it returns
    "abc123deadbeef". *)
Theorem GetLatestRemoteHashForBranch_first_field (c : client) (ctx : Ctx)
    (remote branch out : string) (w w1 : World Ext) :
  retryCommand 3 time_Second (logger c)
    (runGitCommand c ctx "" ["ls-remote"; "refs/heads/" ++ branch]) w
  = (Ret (out, None), w1) ->
  exists hash,
    GetLatestRemoteHashForBranch c ctx remote branch w = (Ret (hash, None), w1)
    /\ hasTab hash = false
    /\ (hash = out \/ exists rest, out = hash ++ String tab rest)
    /\ (hasTab out = false -> hash = out)
    /\ (out = "abc123deadbeef" ++ String tab ("refs/heads/main" ++ String newline "")
        -> hash = "abc123deadbeef").
Proof.
  intros E. exists (beforeTab out).
  rewrite (GetLatest_after_listing c ctx remote branch w w1 out None E).
  destruct (beforeTab_prefix out) as [H1 H2].
  repeat split; try assumption.
  - apply beforeTab_noTab.
  - intros ->. reflexivity.
Qed.

(** C4, as amended: GetLatestRemoteHashForBranch returns an error exactly
    when the listing command, retried, fails, and then the error of the
    last attempt.  When the command succeeds it returns a nil error
    whatever the output holds: for an output without the branch ref, such
    as the empty output, the hash is the text before the first tab, the
    empty string for the empty output. *)
Theorem GetLatestRemoteHashForBranch_error_only_from_command (c : client)
    (ctx : Ctx) (remote branch out : string) (err : option error)
    (w w1 : World Ext) :
  retryCommand 3 time_Second (logger c)
    (runGitCommand c ctx "" ["ls-remote"; "refs/heads/" ++ branch]) w
  = (Ret (out, err), w1) ->
  fst (GetLatestRemoteHashForBranch c ctx remote branch w)
  = Ret (match err with None => beforeTab out | Some _ => "" end, err)
  /\ (err = None -> out = "" ->
      GetLatestRemoteHashForBranch c ctx remote branch w = (Ret ("", None), w1)).
Proof.
  intros E.
  rewrite (GetLatest_after_listing c ctx remote branch w w1 out err E).
  split.
  - destruct err; reflexivity.
  - intros -> ->. reflexivity.
Qed.

(** C10: the hash and the error that GetLatestRemoteHashForBranch returns
    do not depend on its [remote] argument, nor do the state it leaves
    the host in and the git commands it runs: each of them is
    git ls-remote refs/heads/<branch>, run in the current directory. *)
Theorem GetLatestRemoteHashForBranch_ignores_remote (c : client) (ctx : Ctx)
    (remote1 remote2 branch : string) (w : World Ext) :
  let r1 := GetLatestRemoteHashForBranch c ctx remote1 branch w in
  let r2 := GetLatestRemoteHashForBranch c ctx remote2 branch w in
  fst r1 = fst r2
  /\ host (snd r1) = host (snd r2)
  /\ List.filter isGit (added w (snd r1)) = List.filter isGit (added w (snd r2))
  /\ (forall dir args, In (EvGit dir args) (added w (snd r1)) ->
        dir = "" /\ args = ["ls-remote"; "refs/heads/" ++ branch]).
Proof.
  intros r1 r2. subst r1 r2.
  pose proof (listing_run c ctx branch w) as L. cbv zeta in L.
  set (op := exec_CombinedOutput ctx (gitPath c)
               ["ls-remote"; "refs/heads/" ++ branch] "") in *.
  destruct (nthCall op ("", None) (attempts op 3 (host w)) (host w))
    as [[out err] x] eqn:En.
  cbn [fst snd] in L.
  rewrite (GetLatest_after_listing c ctx remote1 branch _ _ out err L).
  rewrite (GetLatest_after_listing c ctx remote2 branch _ _ out err L).
  destruct err as [e|]; cbn [fst snd]; rewrite ?upd_upd, ?added_upd.
  - split; [reflexivity|]. split; [reflexivity|].
    split; [rewrite !List.filter_app; reflexivity|].
    intros dir args Hin.
    apply in_app_or in Hin as [Hin|[Heq|[]]]; [|discriminate].
    apply In_retryEvents in Hin as [Heq|Hg]; [|discriminate].
    split; congruence.
  - split; [reflexivity|]. split; [reflexivity|]. split; [reflexivity|].
    intros dir args Hin.
    apply In_retryEvents in Hin as [Heq|Hg]; [|discriminate].
    split; congruence.
Qed.

End RemoteHash.

(** ** Clone *)

Section CloneFacts.
Context {Ext Ctx : Type} `{Host Ext Ctx}.
Variables (c : client) (ctx : Ctx) (base repoFullName destination : string).

Local Abbreviation path := (repoCachePath c repoFullName).
Local Abbreviation remote := (base ++ "/" ++ repoFullName).
Local Abbreviation lg :=
  (Logger_With (logger c)
     [("base", base); ("repo", repoFullName); ("repo-cache-path", path)]).
Local Abbreviation handle :=
  (NewRepo repoFullName destination (gitPath c) remote (logger c)).

Lemma lockRepo_free (w : World Ext) :
  lockFree repoFullName w ->
  exists locks hp l,
    lockRepo repoFullName w
    = (Ret tt, mkWorld (host w) false locks (<[l := true]> hp) (events w))
    /\ locks !! repoFullName = Some l.
Proof.
  intros [Hmu Hl]. unfold lockRepo. rewrite Hmu.
  destruct (repoLocks w !! repoFullName) as [l|] eqn:E.
  - rewrite E, Hl. exists (repoLocks w), (mutexes w), l. split; [reflexivity|exact E].
  - rewrite !lookup_insert_eq. do 3 eexists. split; [reflexivity|].
    apply lookup_insert_eq.
Qed.

Lemma unlockRepo_held (w : World Ext) (l : nat) :
  mu w = false -> repoLocks w !! repoFullName = Some l ->
  mutexes w !! l = Some true ->
  unlockRepo repoFullName w
  = (Ret tt, mkWorld (host w) false (repoLocks w) (<[l := false]> (mutexes w))
               (events w)).
Proof. intros Hmu Hl Hm. unfold unlockRepo. now rewrite Hmu, Hl, Hm. Qed.

(** The end of Clone, case by case. *)
Lemma cloneFromLocal_cases (w : World Ext) :
  let m := os_MkdirAll destination os_ModePerm (host w) in
  let g := localCloneOp c ctx repoFullName destination (snd m) in
  let u := repo_SetUser ctx handle (username c) (email c) (snd (g)) in
  let evM := EvMkdirAll destination os_ModePerm in
  let evG := EvGit "" ["clone"; path; destination] in
  let evU := EvSetUser destination (username c) (email c) in
  cloneFromLocal c ctx lg remote repoFullName destination w =
  match fst m with
  | Some e => (Ret (None, Some e), upd w (snd m) [evM])
  | None =>
      match snd (fst g) with
      | Some e =>
          (Ret (None, Some (fmt_Errorf_v "failed to clone from local" e)),
           upd w (snd g)
             [evM; evG;
              EvLog ErrorLevel "failed to clone from local"
                (lg_fields lg ++ [("out", fst (fst g)); ("repo-path", destination);
                                  ("error", Error e)])])
      | None =>
          if negb (String.eqb (username c) "") || negb (String.eqb (email c) "")
          then match fst u with
               | Some e =>
                   (Ret (None, Some (fmt_Errorf_v "failed to set user" e)),
                    upd w (snd u) [evM; evG; evU])
               | None => (Ret (Some handle, None), upd w (snd u) [evM; evG; evU])
               end
          else (Ret (Some handle, None), upd w (snd g) [evM; evG])
      end
  end.
Proof.
  intros m g u evM evG evU. unfold cloneFromLocal.
  unfold bind at 1. rewrite hostOp_upd. fold m.
  destruct (fst m) as [e|]; [reflexivity|].
  unfold bind at 1. unfold runGitCommand. rewrite hostOp_upd. cbn [host upd].
  change (exec_CombinedOutput ctx (gitPath c) ["clone"; path; destination] "")
    with (localCloneOp c ctx repoFullName destination).
  fold g. cbn [fst snd].
  destruct (snd (fst g)) as [e|].
  - unfold bind, Logger_log. rewrite emit_upd, !upd_upd. reflexivity.
  - destruct (negb (String.eqb (username c) "") || negb (String.eqb (email c) "")).
    + unfold bind at 1. rewrite hostOp_upd, !upd_upd. cbn [host upd]. fold u.
      destruct (fst u); reflexivity.
    + unfold ret. now rewrite !upd_upd.
Qed.

(** The end of Clone always returns; it runs no fetch, no mirror clone and
    no os.RemoveAll. *)
Lemma cloneFromLocal_shape (w : World Ext) :
  exists res x evs,
    cloneFromLocal c ctx lg remote repoFullName destination w = (Ret res, upd w x evs)
    /\ count isFetch evs = O /\ count isMirrorClone evs = O
    /\ count isRemoveAll evs = O.
Proof.
  rewrite cloneFromLocal_cases.
  repeat match goal with
         | |- context [match ?d with _ => _ end] => destruct d
         end;
    do 3 eexists; (split; [reflexivity|]); repeat split; reflexivity.
Qed.

Local Abbreviation infoClone :=
  (EvLog InfoLevel ("cloning " ++ repoFullName ++ " for the first time")
     (lg_fields lg ++ [])).
Local Abbreviation infoFetch :=
  (EvLog InfoLevel ("fetching " ++ repoFullName ++ " to update the cache")
     (lg_fields (logger c) ++ [])).
Local Abbreviation evParent :=
  (EvMkdirAll (filepath_Dir path) os_ModePerm).
Local Abbreviation evMirror := (EvGit "" ["clone"; "--mirror"; remote; path]).
Local Abbreviation evFetch := (EvGit path ["fetch"]).

(** The body of Clone when os.Stat fails with another error than "does
    not exist". *)
Lemma cloneLocked_ambiguous (w : World Ext) :
  mirrorPresent c repoFullName (host w) = false ->
  mirrorMissing c repoFullName (host w) = false ->
  cloneLocked c ctx base repoFullName destination w
  = (Ret (None, os_Stat path (host w)), w).
Proof.
  unfold mirrorPresent, mirrorMissing, cloneLocked. intros -> ->. reflexivity.
Qed.

(** The body of Clone on a cache miss. *)
Lemma cloneLocked_missing (w : World Ext) :
  mirrorMissing c repoFullName (host w) = true ->
  let m := parentDir c repoFullName (host w) in
  let op := mirrorCloneOp c ctx base repoFullName in
  let last := nthCall op ("", None) (attempts op 3 (snd m)) (snd m) in
  let evs := ([infoClone; evParent]
              ++ retryEvents 3 0 time_Second lg evMirror op (snd m))%list in
  cloneLocked c ctx base repoFullName destination w =
  if parentReady c repoFullName (host w) then
    match snd (fst last) with
    | Some e =>
        (Ret (None, Some (fmt_Errorf_v "failed to clone from remote" e)),
         upd w (snd last)
           (evs ++ [EvLog ErrorLevel "failed to clone from remote"
                      (lg_fields lg ++ [("out", fst (fst last)); ("error", Error e)])])%list)
    | None =>
        cloneFromLocal c ctx lg remote repoFullName destination
          (upd w (snd last) evs)
    end
  else (Ret (None, fst m), upd w (snd m) [infoClone; evParent]).
Proof.
  intros Hmiss m op last evs. unfold cloneLocked.
  unfold mirrorMissing in Hmiss. rewrite Hmiss.
  replace (negb (isNil (os_Stat path (host w))) && negb true) with false
    by (now rewrite andb_false_r).
  unfold bind at 1. unfold Logger_log at 1. rewrite emit_upd.
  unfold bind at 1. rewrite hostOp_upd, upd_upd. cbn [host upd].
  change (os_MkdirAll (filepath_Dir path) os_ModePerm (host w)) with m.
  unfold parentReady. change (parentDir c repoFullName (host w)) with m.
  destruct (isNil (fst m) || os_IsExist (fst m)) eqn:Er.
  - replace (negb (isNil (fst m)) && negb (os_IsExist (fst m))) with false
      by (rewrite <- negb_orb, Er; reflexivity).
    unfold bind at 1. unfold runGitCommand.
    rewrite retryCommand_run. cbn [host upd fst snd].
    rewrite upd_upd. subst evs last op. unfold mirrorCloneOp.
    change (Z.to_nat 3) with 3%nat. cbn [app].
    match goal with
    | |- context [match snd (fst ?t) with _ => _ end] =>
        destruct (snd (fst t)) as [e|]
    end; [|reflexivity].
    unfold bind, Logger_log. rewrite emit_upd, upd_upd. reflexivity.
  - replace (negb (isNil (fst m)) && negb (os_IsExist (fst m))) with true
      by (rewrite <- negb_orb, Er; reflexivity).
    reflexivity.
Qed.

(** The body of Clone on a cache hit. *)
Lemma cloneLocked_present (w : World Ext) :
  mirrorPresent c repoFullName (host w) = true ->
  let op := fetchOp c ctx repoFullName in
  let last := nthCall op ("", None) (attempts op 3 (host w)) (host w) in
  let evs := ([infoFetch]
              ++ retryEvents 3 0 time_Second (logger c) evFetch op (host w))%list in
  cloneLocked c ctx base repoFullName destination w =
  match snd (fst last) with
  | Some e =>
      (Ret (None, Some (fmt_Errorf_v "failed to fetch" e)),
       upd w (snd last)
         (evs ++ [EvLog ErrorLevel "failed to fetch from remote"
                    (lg_fields lg ++ [("out", fst (fst last)); ("error", Error e)])])%list)
  | None =>
      cloneFromLocal c ctx lg remote repoFullName destination (upd w (snd last) evs)
  end.
Proof.
  intros Hpres op last evs. unfold cloneLocked.
  unfold mirrorPresent in Hpres.
  destruct (os_Stat path (host w)) as [e|] eqn:Es; [discriminate|].
  cbn [isNil negb andb os_IsNotExist].
  unfold bind at 1. unfold Logger_log at 1. rewrite emit_upd.
  unfold bind at 1. unfold runGitCommand.
  rewrite retryCommand_run. cbn [host upd fst snd].
  rewrite upd_upd. subst evs last op. unfold fetchOp.
  change (Z.to_nat 3) with 3%nat. cbn [app].
  match goal with
  | |- context [match snd (fst ?t) with _ => _ end] =>
      destruct (snd (fst t)) as [e|]
  end; [|reflexivity].
  unfold bind, Logger_log. rewrite emit_upd, upd_upd. reflexivity.
Qed.

Lemma mirror_trichotomy (x : Ext) :
  (mirrorPresent c repoFullName x = true /\ mirrorMissing c repoFullName x = false)
  \/ (mirrorPresent c repoFullName x = false /\ mirrorMissing c repoFullName x = true)
  \/ (mirrorPresent c repoFullName x = false /\ mirrorMissing c repoFullName x = false).
Proof.
  unfold mirrorPresent, mirrorMissing.
  destruct (os_Stat path x) as [[]|]; simpl; auto.
Qed.

(** The body of Clone always returns, and touches the host and the log
    only. *)
Lemma cloneLocked_shape (w : World Ext) :
  exists res x evs,
    cloneLocked c ctx base repoFullName destination w = (Ret res, upd w x evs).
Proof.
  destruct (mirror_trichotomy (host w)) as [[Hp Hm]|[[Hp Hm]|[Hp Hm]]].
  - rewrite (cloneLocked_present w Hp). cbv zeta.
    match goal with |- context [match ?d with _ => _ end] => destruct d end.
    + eauto.
    + destruct (cloneFromLocal_shape
                  (upd w (snd (nthCall (fetchOp c ctx repoFullName) ("", None)
                     (attempts (fetchOp c ctx repoFullName) 3 (host w)) (host w)))
                     ([infoFetch] ++ retryEvents 3 0 time_Second (logger c) evFetch
                        (fetchOp c ctx repoFullName) (host w))%list))
        as (res & x & evs & E & _).
      rewrite E, upd_upd. eauto.
  - rewrite (cloneLocked_missing w Hm). cbv zeta.
    destruct (parentReady c repoFullName (host w)); [|eauto].
    match goal with |- context [match ?d with _ => _ end] => destruct d end.
    + eauto.
    + match goal with
      | |- context [cloneFromLocal _ _ _ _ _ _ ?w1] =>
          destruct (cloneFromLocal_shape w1) as (res & x & evs & E & _)
      end.
      rewrite E, upd_upd. eauto.
  - rewrite (cloneLocked_ambiguous w Hp Hm). exists (None, os_Stat path (host w)), (host w), [].
    now rewrite upd_id.
Qed.

(** Clone on a free lock is its body, run with the lock taken; the lock is
    free again afterwards. *)
Lemma Clone_locked (w : World Ext) :
  lockFree repoFullName w ->
  exists wl,
    host wl = host w
    /\ outcomeOf (Clone c ctx base repoFullName destination w)
       = outcomeOf (cloneLocked c ctx base repoFullName destination wl)
    /\ host (worldOf (Clone c ctx base repoFullName destination w))
       = host (worldOf (cloneLocked c ctx base repoFullName destination wl))
    /\ added w (worldOf (Clone c ctx base repoFullName destination w))
       = added wl (worldOf (cloneLocked c ctx base repoFullName destination wl))
    /\ lockFree repoFullName (worldOf (Clone c ctx base repoFullName destination w)).
Proof.
  intros Hfree. destruct (lockRepo_free w Hfree) as (locks & hp & l & El & Hl).
  exists (mkWorld (host w) false locks (<[l := true]> hp) (events w)).
  split; [reflexivity|].
  destruct (cloneLocked_shape
              (mkWorld (host w) false locks (<[l := true]> hp) (events w)))
    as (res & x & evs & E).
  assert (EC : Clone c ctx base repoFullName destination w
               = (Ret res,
                  mkWorld x false locks (<[l := false]> (<[l := true]> hp))
                    (events w ++ evs))).
  { unfold Clone, bind at 1. rewrite El. unfold defer. rewrite E. unfold bind.
    rewrite (unlockRepo_held _ l); [|reflexivity|exact Hl|apply lookup_insert_eq].
    reflexivity. }
  rewrite EC, E. unfold outcomeOf, worldOf, added, lockFree, upd. cbn.
  rewrite Hl, lookup_insert_eq. auto.
Qed.

End CloneFacts.

Section CloneTheorems.
Context {Ext Ctx : Type} `{Host Ext Ctx}.
Variables (c : client) (ctx : Ctx) (base repoFullName destination : string).

Local Abbreviation path := (repoCachePath c repoFullName).
Local Abbreviation body := (cloneLocked c ctx base repoFullName destination).
Local Abbreviation call := (Clone c ctx base repoFullName destination).

(** The events of the body on a cache miss: no fetch, and one mirror clone
    per attempt of the retried command. *)
Lemma cloneLocked_missing_counts (w : World Ext) :
  mirrorMissing c repoFullName (host w) = true ->
  count isFetch (added w (worldOf (body w))) = O
  /\ count isMirrorClone (added w (worldOf (body w)))
     = if parentReady c repoFullName (host w)
       then attempts (mirrorCloneOp c ctx base repoFullName) 3
              (snd (parentDir c repoFullName (host w)))
       else O.
Proof.
  intros Hm. rewrite (cloneLocked_missing c ctx base repoFullName destination w Hm).
  cbv zeta. destruct (parentReady c repoFullName (host w)).
  - match goal with
    | |- context [match ?d with _ => _ end] => destruct d
    end.
    + unfold worldOf. cbn [snd]. rewrite added_upd. count_events.
      split; lia.
    + match goal with
      | |- context [cloneFromLocal _ _ _ _ _ _ ?w1] =>
          destruct (cloneFromLocal_shape c ctx base repoFullName destination w1)
            as (res & x & evs & E & Hf & Hc & _)
      end.
      rewrite E, upd_upd. unfold worldOf. cbn [snd].
      rewrite added_upd, !count_app, Hf, Hc. count_events. split; lia.
  - unfold worldOf. cbn [snd]. rewrite added_upd. split; reflexivity.
Qed.

(** The events of the body on a cache hit: no mirror clone, and one fetch
    per attempt of the retried command. *)
Lemma cloneLocked_present_counts (w : World Ext) :
  mirrorPresent c repoFullName (host w) = true ->
  count isMirrorClone (added w (worldOf (body w))) = O
  /\ count isFetch (added w (worldOf (body w)))
     = attempts (fetchOp c ctx repoFullName) 3 (host w).
Proof.
  intros Hp. rewrite (cloneLocked_present c ctx base repoFullName destination w Hp).
  cbv zeta.
  match goal with
  | |- context [match ?d with _ => _ end] => destruct d
  end.
  - unfold worldOf. cbn [snd]. rewrite added_upd. count_events. split; lia.
  - match goal with
    | |- context [cloneFromLocal _ _ _ _ _ _ ?w1] =>
        destruct (cloneFromLocal_shape c ctx base repoFullName destination w1)
          as (res & x & evs & E & Hf & Hc & _)
    end.
    rewrite E, upd_upd. unfold worldOf. cbn [snd].
    rewrite added_upd, !count_app, Hf, Hc. count_events. split; lia.
Qed.


Local Abbreviation lg :=
  (Logger_With (logger c)
     [("base", base); ("repo", repoFullName); ("repo-cache-path", path)]).
Local Abbreviation handle :=
  (NewRepo repoFullName destination (gitPath c) (base ++ "/" ++ repoFullName)
     (logger c)).

(** C6: on a cache hit where the three attempts of the fetch fail, Clone
    returns the error of the last attempt, wrapped; the commands it ran
    are the three fetches, with no clone into the destination and no
    removal; the host is left as the third fetch left it, so a mirror that
    the failed fetches left on the disk is still there: the repository is
    still cached. *)
Theorem Clone_fetch_failure (w : World Ext)
    (o1 o2 o3 : string) (e1 e2 e3 : error) (x1 x2 x3 : Ext) :
  lockFree repoFullName w ->
  mirrorPresent c repoFullName (host w) = true ->
  fetchOp c ctx repoFullName (host w) = ((o1, Some e1), x1) ->
  fetchOp c ctx repoFullName x1 = ((o2, Some e2), x2) ->
  fetchOp c ctx repoFullName x2 = ((o3, Some e3), x3) ->
  let evs := added w (worldOf (call w)) in
  outcomeOf (call w)
  = Ret (None, Some (errorString ("failed to fetch: " ++ Error e3)))
  /\ host (worldOf (call w)) = x3
  /\ evs =
     [EvLog InfoLevel ("fetching " ++ repoFullName ++ " to update the cache")
        (lg_fields (logger c) ++ []);
      EvGit path ["fetch"]; warnEvent (logger c) 1 time_Second; EvSleep time_Second;
      EvGit path ["fetch"]; warnEvent (logger c) 2 time_Second; EvSleep time_Second;
      EvGit path ["fetch"]; warnEvent (logger c) 3 time_Second; EvSleep time_Second;
      EvLog ErrorLevel "failed to fetch from remote"
        (lg_fields lg ++ [("out", o3); ("error", Error e3)])]
  /\ count isLocalClone evs = O
  /\ count isMirrorClone evs = O
  /\ count isRemoveAll evs = O
  /\ (mirrorPresent c repoFullName x3 = true ->
      mirrorPresent c repoFullName (host (worldOf (call w))) = true)
  /\ lockFree repoFullName (worldOf (call w)).
Proof.
  intros Hfree Hp E1 E2 E3 evs.
  destruct (Clone_locked c ctx base repoFullName destination w Hfree)
    as (wl & Hh & Ho & Hx & Ha & Hfree').
  subst evs. rewrite Ho, Hx, Ha. rewrite <- Hh in Hp, E1.
  rewrite (cloneLocked_present c ctx base repoFullName destination wl Hp).
  cbv zeta.
  repeat (cbn [attempts nthCall retryEvents fst snd]; rewrite ?E1, ?E2, ?E3).
  unfold outcomeOf, worldOf. cbn [fst snd].
  rewrite added_upd. cbn [host upd app].
  do 6 (split; [reflexivity|]). split; [tauto|exact Hfree'].
Qed.

(** On a successful update of the mirror the body of Clone goes on with
    the clone into the destination, from the host state the update left;
    up to there no os.RemoveAll has run. *)
Lemma cloneLocked_updated (w : World Ext) :
  mirrorUpdated c ctx base repoFullName (host w) = true ->
  exists evs,
    count isRemoveAll evs = O
    /\ body w
       = cloneFromLocal c ctx lg (base ++ "/" ++ repoFullName) repoFullName destination
           (upd w (snd (updateEnd c ctx base repoFullName (host w))) evs).
Proof.
  unfold mirrorUpdated, updateEnd, updateOp, updateStart. intros Hu.
  apply andb_prop in Hu as [Hreach Hok].
  destruct (mirror_trichotomy c repoFullName (host w))
    as [[Hp Hm]|[[Hp Hm]|[Hp Hm]]]; rewrite Hp, Hm in *; try discriminate.
  - rewrite (cloneLocked_present c ctx base repoFullName destination w Hp).
    cbv zeta. destruct (snd (fst (nthCall _ _ _ _))); [discriminate|].
    eexists. split; [|reflexivity]. now count_events.
  - rewrite (cloneLocked_missing c ctx base repoFullName destination w Hm).
    cbv zeta. cbn [orb andb] in Hreach. rewrite Hreach.
    destruct (snd (fst (nthCall _ _ _ _))); [discriminate|].
    eexists. split; [|reflexivity]. now count_events.
Qed.

(** C7: when the update of the mirror succeeded, a failure of the clone
    into the destination or of the identity configuration makes Clone
    return an error, and nothing is rolled back: Clone runs no
    os.RemoveAll, and after the update the only host operations are the
    os.MkdirAll of the destination, the local clone and SetUser, so
    whatever these three leave unchanged of the host, such as the mirror,
    is as the update left it. *)
Theorem Clone_failure_keeps_mirror (w : World Ext) (T : Type) (view : Ext -> T) :
  lockFree repoFullName w ->
  mirrorUpdated c ctx base repoFullName (host w) = true ->
  let xu := snd (updateEnd c ctx base repoFullName (host w)) in
  let m := os_MkdirAll destination os_ModePerm xu in
  let g := localCloneOp c ctx repoFullName destination (snd m) in
  let u := repo_SetUser ctx handle (username c) (email c) (snd g) in
  let identity :=
    negb (String.eqb (username c) "") || negb (String.eqb (email c) "") in
  view (snd m) = view xu ->
  view (snd g) = view (snd m) ->
  view (snd u) = view (snd g) ->
  view (host (worldOf (call w))) = view xu
  /\ count isRemoveAll (added w (worldOf (call w))) = O
  /\ (forall e, fst m = None -> snd (fst g) = Some e ->
        outcomeOf (call w)
        = Ret (None, Some (errorString ("failed to clone from local: " ++ Error e))))
  /\ (forall e, fst m = None -> snd (fst g) = None -> identity = true ->
        fst u = Some e ->
        outcomeOf (call w)
        = Ret (None, Some (errorString ("failed to set user: " ++ Error e)))).
Proof.
  intros Hfree Hu.
  destruct (Clone_locked c ctx base repoFullName destination w Hfree)
    as (wl & Hh & Ho & Hx & Ha & _).
  rewrite Ho, Hx, Ha. rewrite <- Hh in *. clear Ho Hx Ha Hfree.
  intros xu m g u identity Vm Vg Vu.
  destruct (cloneLocked_updated wl Hu) as (evs & Hevs & ->).
  rewrite cloneFromLocal_cases. cbn [host upd]. fold xu. fold m. fold g.
  cbv zeta. fold u. fold identity.
  destruct (fst m) as [em|] eqn:Em.
  { unfold worldOf, outcomeOf. cbn [fst snd]. rewrite upd_upd, added_upd.
    cbn [host upd]. rewrite count_app, Hevs.
    split; [exact Vm|]. split; [reflexivity|]. split; intros; discriminate. }
  destruct (snd (fst g)) as [eg|] eqn:Eg.
  { unfold worldOf, outcomeOf. cbn [fst snd]. rewrite upd_upd, added_upd.
    cbn [host upd]. rewrite count_app, Hevs.
    split; [congruence|]. split; [reflexivity|].
    split; [intros e _ [= <-]; reflexivity|intros; discriminate]. }
  destruct identity eqn:Ei.
  - destruct (fst u) as [eu|] eqn:Eu;
      unfold worldOf, outcomeOf; cbn [fst snd]; rewrite upd_upd, added_upd;
      cbn [host upd]; rewrite count_app, Hevs;
      (split; [congruence|]); (split; [reflexivity|]);
      (split; [intros; discriminate|]).
    + intros e _ _ _ [= <-]. reflexivity.
    + intros; discriminate.
  - unfold worldOf, outcomeOf. cbn [fst snd]. rewrite upd_upd, added_upd.
    cbn [host upd]. rewrite count_app, Hevs.
    split; [congruence|]. split; [reflexivity|].
    split; intros; discriminate.
Qed.

End CloneTheorems.

(** ** The client on the scripted host *)

Lemma simWorld_lockFree (name : string) (paths : list string)
    (script : list (string * option error)) :
  lockFree name (simWorld paths script).
Proof. split; [reflexivity|]. simpl. now rewrite lookup_empty. Qed.

(** The scripted host removes what is below the directory given to
    os.RemoveAll. *)
Lemma simHost_RemoveAll_removes (root : string) :
  RemoveAll_removes (Ext := Sim) (Ctx := unit) root.
Proof.
  intros p x _ Hunder. cbn [os_RemoveAll os_Stat simHost snd].
  unfold sim_exists. cbn [sim_paths].
  assert (E : existsb (String.eqb p)
                (List.filter
                   (fun q => negb (String.eqb q root
                                   || strings_HasPrefix q (root ++ "/")))
                   (sim_paths x)) = false).
  { induction (sim_paths x) as [|q qs IH]; [reflexivity|]. cbn [List.filter].
    destruct (negb (String.eqb q root || strings_HasPrefix q (root ++ "/"))) eqn:Eq;
      [|exact IH].
    cbn [existsb]. rewrite IH, orb_false_r.
    destruct (String.eqb_spec p q) as [->|]; [|reflexivity].
    unfold pathUnder in Hunder. rewrite Hunder, orb_true_r in Eq. discriminate. }
  now rewrite E.
Qed.



Lemma Clone_fetch_failure_witness :
  let w := simWorld ["/tmp/gitcache1/org/repo.git"]
             [("e1", Some (ExitError 1)); ("e2", Some (ExitError 1));
              ("e3", Some (ExitError 128))] in
  outcomeOf (Clone simClient tt "https://github.com" "org/repo" "/work/d1" w)
  = Ret (None, Some (errorString "failed to fetch: exit status 128")).
Proof.
  intros w.
  refine (proj1 (Clone_fetch_failure simClient tt "https://github.com" "org/repo"
                   "/work/d1" w _ _ _ _ _ _ _ _ _
                   (simWorld_lockFree _ _ _) eq_refl eq_refl eq_refl eq_refl)).
Defined.

Lemma Clone_failure_keeps_mirror_witness :
  let w := simWorld ["/tmp/gitcache1/org/repo.git"]
             [("", None); ("fatal: destination exists", Some (ExitError 128))] in
  let res := Clone simClient tt "https://github.com" "org/repo" "/work/d1" w in
  outcomeOf res
  = Ret (None, Some (errorString "failed to clone from local: exit status 128"))
  /\ sim_exists "/tmp/gitcache1/org/repo.git" (host (worldOf res)) = true.
Proof.
  intros w res.
  destruct (Clone_failure_keeps_mirror simClient tt "https://github.com" "org/repo"
              "/work/d1" w bool (sim_exists "/tmp/gitcache1/org/repo.git"))
    as (Hview & _ & Hlocal & _);
    [apply simWorld_lockFree | vm_compute; reflexivity .. |].
  split.
  - apply (Hlocal (ExitError 128)); vm_compute; reflexivity.
  - unfold res. rewrite Hview. vm_compute. reflexivity.
Defined.

Lemma GetLatestRemoteHashForBranch_first_field_witness :
  let out := "abc123deadbeef" ++ String tab ("refs/heads/main" ++ String newline "") in
  let w := simWorld [] [(out, None)] in
  outcomeOf (GetLatestRemoteHashForBranch simClient tt "origin" "main" w)
  = Ret ("abc123deadbeef", None).
Proof.
  intros out w.
  destruct (GetLatestRemoteHashForBranch_first_field simClient tt "origin" "main"
              out w
              (worldOf (retryCommand 3 time_Second (logger simClient)
                          (runGitCommand simClient tt ""
                             ["ls-remote"; "refs/heads/" ++ "main"]) w)))
    as (hash & E & _ & _ & _ & Hex); [vm_compute; reflexivity|].
  rewrite E, (Hex eq_refl). reflexivity.
Defined.

(** C3 as stated fails: on an output without a tab the result keeps the
    newline that ends the output; it is not the trimmed output. *)
Lemma GetLatestRemoteHashForBranch_not_trimmed :
  let out := "abc123deadbeef" ++ String newline "" in
  let w := simWorld [] [(out, None)] in
  hasTab out = false
  /\ spec_hash out = "abc123deadbeef"
  /\ outcomeOf (GetLatestRemoteHashForBranch simClient tt "origin" "main" w)
     = Ret (out, None)
  /\ outcomeOf (GetLatestRemoteHashForBranch simClient tt "origin" "main" w)
     <> Ret (spec_hash out, None).
Proof. vm_compute. repeat split; discriminate. Qed.

Lemma GetLatestRemoteHashForBranch_error_only_from_command_witness :
  let w := simWorld [] [("", None)] in
  GetLatestRemoteHashForBranch simClient tt "origin" "main" w
  = (Ret ("", None),
     worldOf (retryCommand 3 time_Second (logger simClient)
                (runGitCommand simClient tt "" ["ls-remote"; "refs/heads/" ++ "main"])
                w)).
Proof.
  intros w.
  apply (GetLatestRemoteHashForBranch_error_only_from_command simClient tt
           "origin" "main" "" None w); [vm_compute; reflexivity|reflexivity..].
Defined.

(** C4 as stated fails: the listing command succeeds with an empty output,
    which does not hold the branch ref, and the result is the empty hash
    with a nil error. *)
Lemma GetLatestRemoteHashForBranch_empty_hash :
  let w := simWorld [] [("", None)] in
  outcomeOf (GetLatestRemoteHashForBranch simClient tt "origin" "main" w)
  = Ret ("", None).
Proof. vm_compute. reflexivity. Qed.

(** ** The lock registry under interleaving *)

Section InterleavingFacts.
Variable key : nat -> string.
Implicit Types (s : Pool) (t : nat) (l : nat).

Lemma setPc_eq t (p : pc) (f : nat -> pc) : setPc t p f t = p.
Proof. unfold setPc. now rewrite Nat.eqb_refl. Qed.

Lemma setPc_ne t t' (p : pc) (f : nat -> pc) : t' <> t -> setPc t p f t' = f t'.
Proof. unfold setPc. intros Hne. now destruct (Nat.eqb_spec t' t). Qed.

Lemma holds_lockRef (p : pc) l : holds p = Some l -> lockRef p = Some l.
Proof. destruct p; simpl; congruence. Qed.

Lemma Inv_init : Inv key initPool.
Proof.
  constructor; simpl; intros;
    try discriminate; try (rewrite lookup_empty in *; discriminate);
    try reflexivity.
Qed.

(** Case analysis on whether a goroutine is the one that moved. *)
Ltac other t' t :=
  destruct (Nat.eq_dec t' t) as [->|?];
  [rewrite ?setPc_eq in *|rewrite ?setPc_ne in * by assumption].

Ltac split_threads t :=
  rewrite ?setPc_eq in *;
  repeat match goal with
         | H : context [setPc t _ _ ?u] |- _ =>
             destruct (Nat.eq_dec u t) as [?|?];
             [subst u; rewrite ?setPc_eq in *
             |rewrite ?setPc_ne in * by assumption]
         | |- context [setPc t _ _ ?u] =>
             destruct (Nat.eq_dec u t) as [?|?];
             [subst u; rewrite ?setPc_eq in *
             |rewrite ?setPc_ne in * by assumption]
         end.

Ltac learn H :=
  let T := type of H in
  lazymatch goal with
  | _ : T |- _ => fail
  | _ => pose proof H
  end.

(** Everything the invariant says of the facts at hand. *)
Ltac saturate HI :=
  repeat match goal with
         | H : inRegistry (pcs _ ?u) = true |- _ => learn (inv_mu_held _ _ HI u H)
         | H1 : inRegistry (pcs _ ?u) = true, H2 : inRegistry (pcs _ ?v) = true |- _ =>
             learn (inv_mu_excl _ _ HI u v H1 H2)
         | H : holds (pcs _ ?u) = Some ?l |- _ => learn (inv_holds_locked _ _ HI u l H)
         | H : holds (pcs _ ?u) = Some ?l |- _ => learn (holds_lockRef _ _ H)
         | H1 : holds (pcs _ ?u) = Some ?l, H2 : holds (pcs _ ?v) = Some ?l |- _ =>
             learn (inv_holds_excl _ _ HI u v l H1 H2)
         | H : lockRef (pcs _ ?u) = Some ?l |- _ => learn (inv_ref _ _ HI u l H)
         | H : c_repoLocks _ !! ?k = Some ?l |- _ => learn (inv_reg_heap _ _ HI k l H)
         | H1 : c_repoLocks _ !! ?k1 = Some ?l, H2 : c_repoLocks _ !! ?k2 = Some ?l |- _ =>
             learn (inv_reg_inj _ _ HI k1 k2 l H1 H2)
         | H : pcs _ ?u = ?p |- _ =>
             let b := eval cbn in (inRegistry p) in
             learn (eq_trans (f_equal inRegistry H) (eq_refl : inRegistry p = b))
         | H : pcs _ ?u = AtInsert |- _ => learn (inv_insert _ _ HI u H)
         | H : pcs _ ?u = AtRead |- _ => learn (inv_read _ _ HI u H)
         end.

Ltac settle HI t :=
  intros; split_threads t; cbn [holds lockRef inRegistry nilRef] in *;
  try discriminate; try reflexivity;
  try apply (inv_ref_nil _ _ HI); try apply (inv_nocrash _ _ HI); saturate HI;
  repeat (rewrite lookup_insert in * ); repeat case_decide; simplify_eq;
  saturate HI;
  repeat match goal with H : is_Some _ |- _ => destruct H end;
  try congruence; eauto.

(** The facts on the goroutine that moves. *)
Ltac mover Et :=
  pose proof (f_equal holds Et) as Eholds;
  pose proof (f_equal lockRef Et) as Eref;
  pose proof (f_equal inRegistry Et) as Ereg;
  pose proof (f_equal nilRef Et) as Enil;
  cbn [holds lockRef inRegistry nilRef] in Eholds, Eref, Ereg, Enil.

(** A mutex that is still locked after the step was locked before, by a
    goroutine that still holds it. *)
Ltac still_held HI t :=
  try match goal with
      | |- forall l, _ !! l = Some true -> exists u, _ =>
          let l0 := fresh "l" in
          let Hl := fresh "Hl" in
          let t0 := fresh "t" in
          intros l0 Hl; rewrite ?lookup_insert in Hl;
          repeat case_decide; simplify_eq;
          first [ destruct (inv_locked_held _ _ HI l0 Hl) as [t0 ?]; exists t0
                | exists t; rewrite setPc_eq; reflexivity ]
      end.

Lemma step_Inv s t s' : Inv key s -> step key t s = Some s' -> Inv key s'.
Proof.
  intros HI Hs. unfold step in Hs.
  pose proof (inv_ref_nil _ _ HI t) as Hnil.
  pose proof (inv_nocrash _ _ HI t) as Hcrash.
  destruct (pcs s t) as [| | | |m|[l|]|l|l|l| | |] eqn:Et; mover Et;
    try discriminate; try congruence.
  - (* c.mu.Lock() in lockRepo *)
    destruct (c_mu s) eqn:Emu; [discriminate|]. injection Hs as <-.
    constructor; cbn [c_mu c_repoLocks heap pcs]; still_held HI t; settle HI t.
  - (* the lookup of the registry *)
    destruct (c_repoLocks s !! key t) as [l|] eqn:El; injection Hs as <-;
      (constructor; cbn [c_mu c_repoLocks heap pcs]; still_held HI t; settle HI t).
  - (* the insertion of a new mutex *)
    injection Hs as <-.
    pose proof (is_fresh (dom (heap s))) as Hfresh.
    set (l := fresh (dom (heap s))) in *.
    assert (Hnew : heap s !! l = None) by (now apply not_elem_of_dom).
    pose proof (inv_insert _ _ HI t Et) as Hnone.
    constructor; cbn [c_mu c_repoLocks heap pcs]; still_held HI t; settle HI t.
  - (* the read of the registry *)
    injection Hs as <-.
    destruct (inv_read _ _ HI t Et) as [l El]. rewrite El.
    constructor; cbn [c_mu c_repoLocks heap pcs]; still_held HI t; settle HI t.
  - (* c.mu.Unlock() in lockRepo *)
    rewrite (inv_mu_held _ _ HI t Ereg) in Hs. injection Hs as <-.
    constructor; cbn [c_mu c_repoLocks heap pcs]; still_held HI t; settle HI t.
  - (* mu.Lock() *)
    pose proof (inv_ref _ _ HI t l Eref) as Hreg.
    destruct (inv_reg_heap _ _ HI _ _ Hreg) as [b Hb]. rewrite Hb in Hs.
    destruct b; [discriminate|]. injection Hs as <-.
    constructor; cbn [c_mu c_repoLocks heap pcs]; still_held HI t; settle HI t.
  - (* the body of Clone *)
    injection Hs as <-.
    constructor; cbn [c_mu c_repoLocks heap pcs]; still_held HI t; settle HI t.
  - (* c.mu.Lock() in unlockRepo *)
    destruct (c_mu s) eqn:Emu; [discriminate|]. injection Hs as <-.
    constructor; cbn [c_mu c_repoLocks heap pcs]; still_held HI t; settle HI t.
  - (* c.repoLocks[repoFullName].Unlock() *)
    rewrite (inv_ref _ _ HI t l Eref), (inv_holds_locked _ _ HI t l Eholds) in Hs.
    injection Hs as <-.
    constructor; cbn [c_mu c_repoLocks heap pcs]; still_held HI t; settle HI t.
  - (* c.mu.Unlock() in unlockRepo *)
    rewrite (inv_mu_held _ _ HI t Ereg) in Hs. injection Hs as <-.
    constructor; cbn [c_mu c_repoLocks heap pcs]; still_held HI t; settle HI t.
Qed.

Lemma turn_Inv s t : Inv key s -> Inv key (turn key t s).
Proof.
  intros HI. unfold turn. destruct (step key t s) eqn:E; [|exact HI].
  exact (step_Inv _ _ _ HI E).
Qed.

Lemma exec_Inv (sched : list nat) s : Inv key s -> Inv key (exec key sched s).
Proof.
  revert s. induction sched as [|t ts IH]; intros s HI; simpl; [exact HI|].
  apply IH, turn_Inv, HI.
Qed.

Lemma exec_app (a b : list nat) s :
  exec key (a ++ b) s = exec key b (exec key a s).
Proof. revert s. induction a as [|t ts IH]; intros s; simpl; [reflexivity|apply IH]. Qed.

(** The cases of a step that was made. *)
Ltac step_cases E :=
  unfold step in E;
  repeat match type of E with
         | context [match ?d with _ => _ end] => destruct d eqn:?
         end;
  try discriminate; injection E as <-.

(** A step of a goroutine moves no other goroutine. *)
Lemma turn_other s t t' : t' <> t -> pcs (turn key t s) t' = pcs s t'.
Proof.
  intros Hne. unfold turn. destruct (step key t s) eqn:E; [|reflexivity].
  step_cases E; cbn [pcs]; rewrite ?setPc_ne by assumption; reflexivity.
Qed.

Lemma exec_solo_other (n : nat) s t t' :
  t' <> t -> pcs (exec key (replicate n t) s) t' = pcs s t'.
Proof.
  intros Hne. revert s. induction n as [|n IH]; intros s; simpl; [reflexivity|].
  rewrite IH. now apply turn_other.
Qed.

(** An entry of the registry stays as it is. *)
Lemma turn_registry s t k l :
  Inv key s -> c_repoLocks s !! k = Some l -> c_repoLocks (turn key t s) !! k = Some l.
Proof.
  intros HI Hk. unfold turn. destruct (step key t s) eqn:E; [|exact Hk].
  step_cases E; cbn [c_repoLocks]; try assumption.
  match goal with
  | Et : pcs s t = AtInsert |- _ => pose proof (inv_insert _ _ HI t Et) as Hnone
  end.
  rewrite lookup_insert_ne; [assumption|congruence].
Qed.

Lemma exec_registry (more : list nat) s k l :
  Inv key s -> c_repoLocks s !! k = Some l ->
  c_repoLocks (exec key more s) !! k = Some l.
Proof.
  revert s. induction more as [|t ts IH]; intros s HI Hk; simpl; [exact Hk|].
  apply IH; [apply turn_Inv, HI|apply turn_registry; assumption].
Qed.

(** A goroutine waiting for its mutex takes it as soon as no goroutine of
    the same repository holds one. *)
Lemma acquire_enabled s t l :
  Inv key s -> pcs s t = AtAcquire (Some l) ->
  (forall t', key t' = key t -> holds (pcs s t') = None) ->
  turn key t s
  = mkPool (c_mu s) (c_repoLocks s) (<[l := true]> (heap s))
      (setPc t (InBody l) (pcs s)).
Proof.
  intros HI Et Hfree.
  assert (Hreg : c_repoLocks s !! key t = Some l)
    by (apply (inv_ref _ _ HI); rewrite Et; reflexivity).
  destruct (inv_reg_heap _ _ HI _ _ Hreg) as [b Hb].
  destruct b.
  - destruct (inv_locked_held _ _ HI l Hb) as [t0 Ht0].
    pose proof (inv_ref _ _ HI t0 l (holds_lockRef _ _ Ht0)) as Hreg0.
    pose proof (inv_reg_inj _ _ HI _ _ _ Hreg0 Hreg) as Hkey.
    rewrite (Hfree t0 Hkey) in Ht0. discriminate.
  - unfold turn, step. now rewrite Et, Hb.
Qed.

(** Alone, a goroutine goes from the call of lockRepo into the body of
    Clone when no goroutine of the same repository holds a mutex. *)
Lemma solo_enter s t :
  Inv key s -> c_mu s = false -> pcs s t = AtLock ->
  (forall t', key t' = key t -> holds (pcs s t') = None) ->
  exists n l,
    pcs (exec key (replicate n t) s) t = InBody l
    /\ c_mu (exec key (replicate n t) s) = false.
Proof.
  intros HI Hmu Et Hfree.
  assert (E1 : turn key t s
               = mkPool true (c_repoLocks s) (heap s) (setPc t AtCheck (pcs s)))
    by (unfold turn, step; now rewrite Et, Hmu).
  assert (Hread : exists n s3,
            exec key (replicate n t) s = s3 /\ pcs s3 t = AtRead
            /\ c_mu s3 = true
            /\ (forall t', t' <> t -> pcs s3 t' = pcs s t')).
  { destruct (c_repoLocks s !! key t) as [l|] eqn:El.
    - exists 2%nat,
        (mkPool true (c_repoLocks s) (heap s)
           (setPc t AtRead (setPc t AtCheck (pcs s)))).
      split.
      + cbn [replicate exec]. rewrite E1. unfold turn, step.
        cbn [pcs c_mu c_repoLocks heap]. now rewrite setPc_eq, El.
      + cbn [pcs c_mu]. rewrite setPc_eq. split; [reflexivity|].
        split; [reflexivity|]. intros t' Hne. now rewrite !setPc_ne.
    - exists 3%nat,
        (mkPool true (<[key t := fresh (dom (heap s))]> (c_repoLocks s))
           (<[fresh (dom (heap s)) := false]> (heap s))
           (setPc t AtRead (setPc t AtInsert (setPc t AtCheck (pcs s))))).
      split.
      + cbn [replicate exec]. rewrite E1.
        assert (E2 : turn key t
                       (mkPool true (c_repoLocks s) (heap s)
                          (setPc t AtCheck (pcs s)))
                     = mkPool true (c_repoLocks s) (heap s)
                         (setPc t AtInsert (setPc t AtCheck (pcs s))))
          by (unfold turn, step; cbn [pcs c_mu c_repoLocks heap];
              now rewrite setPc_eq, El).
        rewrite E2. unfold turn, step. cbn [pcs c_mu c_repoLocks heap].
        now rewrite setPc_eq.
      + cbn [pcs c_mu]. rewrite setPc_eq. split; [reflexivity|].
        split; [reflexivity|]. intros t' Hne. now rewrite !setPc_ne. }
  destruct Hread as (n & s3 & E3 & Et3 & Hmu3 & Hoth3).
  assert (HI3 : Inv key s3) by (rewrite <- E3; apply exec_Inv, HI).
  destruct (inv_read _ _ HI3 t Et3) as [l El].
  exists (n + 3)%nat, l. rewrite replicate_add, exec_app, E3.
  cbn [replicate exec].
  assert (E4 : turn key t s3
               = mkPool true (c_repoLocks s3) (heap s3)
                   (setPc t (AtRelease (Some l)) (pcs s3)))
    by (unfold turn, step; rewrite Et3, El, Hmu3; reflexivity).
  rewrite E4.
  assert (E5 : turn key t (mkPool true (c_repoLocks s3) (heap s3)
                             (setPc t (AtRelease (Some l)) (pcs s3)))
               = mkPool false (c_repoLocks s3) (heap s3)
                   (setPc t (AtAcquire (Some l))
                      (setPc t (AtRelease (Some l)) (pcs s3))))
    by (unfold turn, step; cbn [pcs c_mu c_repoLocks heap];
        rewrite setPc_eq; reflexivity).
  rewrite E5.
  rewrite acquire_enabled with (l := l).
  - cbn [pcs c_mu]. now rewrite setPc_eq.
  - rewrite <- E5, <- E4. apply turn_Inv, turn_Inv, HI3.
  - cbn [pcs]. now rewrite setPc_eq.
  - cbn [pcs]. intros t' Hkey. destruct (Nat.eq_dec t' t) as [->|Hne].
    + now rewrite setPc_eq.
    + rewrite !setPc_ne by assumption. rewrite Hoth3 by assumption.
      now apply Hfree.
Qed.

End InterleavingFacts.

(** ** lockRepo and unlockRepo, alone and step by step

    The calls of the sequential client are the steps of a goroutine run
    in a row: the registry and the mutexes end up the same. *)

Section StepsOfACall.
Context {Ext : Type}.
Variable key : nat -> string.
Implicit Types (s : Pool) (t : nat) (l : nat) (w : World Ext).

Lemma exec_cons t (ts : list nat) s :
  exec key (t :: ts) s = exec key ts (turn key t s).
Proof. reflexivity. Qed.

Lemma turn_AtLock s t :
  pcs s t = AtLock -> c_mu s = false ->
  turn key t s = mkPool true (c_repoLocks s) (heap s) (setPc t AtCheck (pcs s)).
Proof. intros Et Hmu. unfold turn, step. now rewrite Et, Hmu. Qed.

Lemma turn_AtCheck s t :
  pcs s t = AtCheck ->
  turn key t s
  = mkPool (c_mu s) (c_repoLocks s) (heap s)
      (setPc t (match c_repoLocks s !! key t with
                | Some _ => AtRead
                | None => AtInsert
                end) (pcs s)).
Proof.
  intros Et. unfold turn, step. rewrite Et.
  now destruct (c_repoLocks s !! key t).
Qed.

Lemma turn_AtInsert s t :
  pcs s t = AtInsert ->
  turn key t s
  = mkPool (c_mu s) (<[key t := fresh (dom (heap s))]> (c_repoLocks s))
      (<[fresh (dom (heap s)) := false]> (heap s)) (setPc t AtRead (pcs s)).
Proof. intros Et. unfold turn, step. now rewrite Et. Qed.

Lemma turn_AtRead s t :
  pcs s t = AtRead ->
  turn key t s
  = mkPool (c_mu s) (c_repoLocks s) (heap s)
      (setPc t (AtRelease (c_repoLocks s !! key t)) (pcs s)).
Proof. intros Et. unfold turn, step. now rewrite Et. Qed.

Lemma turn_AtRelease s t (m : option nat) :
  pcs s t = AtRelease m -> c_mu s = true ->
  turn key t s
  = mkPool false (c_repoLocks s) (heap s) (setPc t (AtAcquire m) (pcs s)).
Proof. intros Et Hmu. unfold turn, step. now rewrite Et, Hmu. Qed.

Lemma turn_AtAcquire s t l :
  pcs s t = AtAcquire (Some l) -> heap s !! l = Some false ->
  turn key t s
  = mkPool (c_mu s) (c_repoLocks s) (<[l := true]> (heap s))
      (setPc t (InBody l) (pcs s)).
Proof. intros Et Hl. unfold turn, step. now rewrite Et, Hl. Qed.

Lemma turn_AtUnlock s t l :
  pcs s t = AtUnlock l -> c_mu s = false ->
  turn key t s
  = mkPool true (c_repoLocks s) (heap s) (setPc t (AtUnlockRepo l) (pcs s)).
Proof. intros Et Hmu. unfold turn, step. now rewrite Et, Hmu. Qed.

Lemma turn_AtUnlockRepo s t l l' :
  pcs s t = AtUnlockRepo l -> c_repoLocks s !! key t = Some l' ->
  heap s !! l' = Some true ->
  turn key t s
  = mkPool (c_mu s) (c_repoLocks s) (<[l' := false]> (heap s))
      (setPc t AtUnlockMu (pcs s)).
Proof. intros Et Hk Hl. unfold turn, step. now rewrite Et, Hk, Hl. Qed.

Lemma turn_AtUnlockMu s t :
  pcs s t = AtUnlockMu -> c_mu s = true ->
  turn key t s
  = mkPool false (c_repoLocks s) (heap s) (setPc t Returned (pcs s)).
Proof. intros Et Hmu. unfold turn, step. now rewrite Et, Hmu. Qed.

(** One step of a goroutine whose pool is written out. *)
Ltac one_turn lem :=
  rewrite exec_cons; erewrite lem;
  cbn [pcs c_mu c_repoLocks heap]; rewrite ?setPc_eq;
  try reflexivity; try eassumption.

(** lockRepo that returns is the run of the statements of lockRepo by one
    goroutine, up to the body of Clone. *)
Lemma lockRepo_as_steps s t w w' :
  c_mu s = mu w -> c_repoLocks s = repoLocks w -> heap s = mutexes w ->
  pcs s t = AtLock ->
  lockRepo (key t) w = (Ret tt, w') ->
  exists n l,
    let s' := exec key (replicate n t) s in
    pcs s' t = InBody l /\ c_mu s' = mu w'
    /\ c_repoLocks s' = repoLocks w' /\ heap s' = mutexes w'.
Proof.
  intros Hmu Hreg Hheap Et. unfold lockRepo.
  destruct (mu w) eqn:Emu; [discriminate|].
  destruct (repoLocks w !! key t) as [l|] eqn:El.
  - rewrite El. destruct (mutexes w !! l) as [[|]|] eqn:Eh; try discriminate.
    intros [= <-]. exists 5%nat, l. cbv zeta. cbn [replicate].
    rewrite <- Hreg in El. rewrite <- Hheap in Eh.
    one_turn turn_AtLock. one_turn turn_AtCheck. rewrite El.
    one_turn turn_AtRead. rewrite El.
    one_turn turn_AtRelease. one_turn turn_AtAcquire.
    cbn [exec pcs c_mu c_repoLocks heap mu repoLocks mutexes].
    rewrite setPc_eq. now rewrite Hreg, Hheap.
  - rewrite lookup_insert_eq, lookup_insert_eq.
    intros [= <-]. exists 6%nat, (fresh (dom (mutexes w))). cbv zeta. cbn [replicate].
    rewrite <- Hreg in El. rewrite <- Hheap.
    one_turn turn_AtLock. one_turn turn_AtCheck. rewrite El.
    one_turn turn_AtInsert. one_turn turn_AtRead. rewrite lookup_insert_eq.
    one_turn turn_AtRelease. one_turn turn_AtAcquire; [|apply lookup_insert_eq].
    cbn [exec pcs c_mu c_repoLocks heap mu repoLocks mutexes].
    rewrite setPc_eq. now rewrite Hreg.
Qed.

(** unlockRepo that returns is the run of the statements of unlockRepo by
    the goroutine that leaves the body of Clone. *)
Lemma unlockRepo_as_steps s t l w w' :
  c_mu s = mu w -> c_repoLocks s = repoLocks w -> heap s = mutexes w ->
  pcs s t = AtUnlock l ->
  unlockRepo (key t) w = (Ret tt, w') ->
  let s' := exec key [t; t; t] s in
  pcs s' t = Returned /\ c_mu s' = mu w'
  /\ c_repoLocks s' = repoLocks w' /\ heap s' = mutexes w'.
Proof.
  intros Hmu Hreg Hheap Et. unfold unlockRepo.
  destruct (mu w) eqn:Emu; [discriminate|].
  destruct (repoLocks w !! key t) as [l'|] eqn:El; [|discriminate].
  destruct (mutexes w !! l') as [[|]|] eqn:Eh; try discriminate.
  intros [= <-]. cbv zeta.
  rewrite <- Hreg in El. rewrite <- Hheap in Eh.
  one_turn turn_AtUnlock. one_turn turn_AtUnlockRepo.
  one_turn turn_AtUnlockMu.
  cbn [exec pcs c_mu c_repoLocks heap mu repoLocks mutexes].
  rewrite setPc_eq. now rewrite Hreg, Hheap.
Qed.

End StepsOfACall.

(** ** The calls of the client and the goroutines of the pool *)

Section Serialization.
Context {Ext Ctx : Type} `{Host Ext Ctx}.
Variable key : nat -> string.
Implicit Types (s : Pool) (t : nat) (l : nat) (w : World Ext).

(** lockRepo waits exactly when the registry mutex is held or a goroutine
    of the same repository holds its mutex, and it never panics. *)
Lemma lockRepo_waits s t w :
  Inv key s -> sameLocks s w ->
  (outcomeOf (lockRepo (key t) w) = Blocked
   <-> c_mu s = true
       \/ exists t', key t' = key t /\ holds (pcs s t') <> None)
  /\ ((exists w', lockRepo (key t) w = (Ret tt, w'))
      \/ outcomeOf (lockRepo (key t) w) = Blocked).
Proof.
  intros HI (Hmu & Hreg & Hheap).
  assert (Hnone : forall t', key t' = key t -> holds (pcs s t') <> None ->
                    exists l, c_repoLocks s !! key t = Some l
                              /\ heap s !! l = Some true).
  { intros t' Hk Hh. destruct (holds (pcs s t')) as [l'|] eqn:Eh; [|congruence].
    exists l'. split.
    - rewrite <- Hk. apply (inv_ref _ _ HI), holds_lockRef, Eh.
    - exact (inv_holds_locked _ _ HI t' l' Eh). }
  unfold outcomeOf, lockRepo. rewrite <- Hmu.
  destruct (c_mu s) eqn:Emu.
  { cbn [fst]. split; [split; auto|now right]. }
  rewrite <- Hreg, <- Hheap.
  destruct (c_repoLocks s !! key t) as [l|] eqn:El.
  - rewrite El. destruct (inv_reg_heap _ _ HI _ _ El) as [b Eb]. rewrite Eb.
    destruct b; cbn [fst].
    + split; [|now right]. split; [intros _; right|reflexivity].
      destruct (inv_locked_held _ _ HI l Eb) as [t' Ht']. exists t'.
      split; [|congruence].
      apply (inv_reg_inj _ _ HI (key t') (key t) l); [|exact El].
      apply (inv_ref _ _ HI), holds_lockRef, Ht'.
    + split; [|left; eauto]. split; [discriminate|].
      intros [Hc|(t' & Hk & Hh)]; [discriminate|].
      destruct (Hnone t' Hk Hh) as (l' & E1 & E2). congruence.
  - rewrite !lookup_insert_eq. cbn [fst]. split; [|left; eauto].
    split; [discriminate|].
    intros [Hc|(t' & Hk & Hh)]; [discriminate|].
    destruct (Hnone t' Hk Hh) as (l' & E1 & E2). congruence.
Qed.

(** The goroutine that leaves the body of Clone goes through unlockRepo. *)
Lemma unlockRepo_returns s t l w :
  Inv key s -> sameLocks s w -> pcs s t = AtUnlock l -> c_mu s = false ->
  exists w', unlockRepo (key t) w = (Ret tt, w').
Proof.
  intros HI (Hmu & Hreg & Hheap) Et Hfree.
  assert (Hh : holds (pcs s t) = Some l) by now rewrite Et.
  pose proof (inv_ref _ _ HI t l (holds_lockRef _ _ Hh)) as El.
  pose proof (inv_holds_locked _ _ HI t l Hh) as Eb.
  unfold unlockRepo. rewrite <- Hmu, Hfree, <- Hreg, El, <- Hheap, Eb. eauto.
Qed.


End Serialization.


Lemma GetLatestRemoteHashForBranch_ignores_remote_witness :
  let w := simWorld [] [("abc" ++ String tab "refs/heads/main", None)] in
  outcomeOf (GetLatestRemoteHashForBranch simClient tt "https://a.example/x" "main" w)
  = outcomeOf (GetLatestRemoteHashForBranch simClient tt "https://b.example/y" "main" w).
Proof.
  intros w.
  exact (proj1 (GetLatestRemoteHashForBranch_ignores_remote simClient tt
                  "https://a.example/x" "https://b.example/y" "main" w)).
Defined.

(** * Further properties of client.go *)

(** ** retryCommand: empty budget, sleeps, larger budgets *)

Section RetryMore.
Context {Ext : Type}.
Implicit Types (w : World Ext) (x : Ext).

(** X1: with a budget of zero or less, retryCommand never calls the
    operation, whatever it is, logs nothing, and reports success: an empty
    output and a nil error. *)
Theorem retryCommand_no_budget (retries iv : Z) (lg : Logger)
    (commander : M Ext (string * option error)) w :
  retries <= 0 ->
  retryCommand retries iv lg commander w = (Ret ("", None), w).
Proof.
  intros Hr. unfold retryCommand.
  replace (Z.to_nat retries) with O by (destruct retries; try reflexivity; lia).
  reflexivity.
Qed.

Variable op : Ext -> (string * option error) * Ext.

(** X2: retryCommand logs one warning and sleeps once after every failed
    attempt, the last one included: when all the attempts of a budget fail
    it has slept as many times as the budget, and when the last attempt
    succeeds, once less than it made attempts. *)
Theorem retryCommand_sleeps_after_each_failure (retries iv : Z) (lg : Logger)
    (e : Event) w :
  1 <= retries -> isGit e = true ->
  let k := attempts op (Z.to_nat retries) (host w) in
  let last := nthCall op ("", None) k (host w) in
  let evs := added w (snd (retryCommand retries iv lg (hostOp e op) w)) in
  count isWarn evs = count isSleep evs
  /\ count isSleep evs = (k - if isNil (snd (fst last)) then 1 else 0)%nat
  /\ (snd (fst last) <> None -> count isSleep evs = Z.to_nat retries).
Proof.
  intros Hr He k last evs. subst evs. rewrite retryCommand_run.
  cbn [snd]. rewrite added_upd.
  assert (Hpos : (1 <= Z.to_nat retries)%nat) by lia.
  destruct (Z.to_nat retries) as [|n] eqn:En; [lia|].
  assert (Hd : forall p,
             p e = false ->
             ((forall j, p (warnEvent lg j iv) = true) /\ p (EvSleep iv) = false
              \/ (forall j, p (warnEvent lg j iv) = false) /\ p (EvSleep iv) = true) ->
             count p (retryEvents (S n) 0 iv lg e op (host w))
             = (k - if isNil (snd (fst last)) then 1 else 0)%nat).
  { intros p Hpe Hp. subst last k.
    cbn [retryEvents attempts]. destruct (snd (fst (op (host w)))) as [err|] eqn:E.
    - rewrite nthCall_shift, !count_cons, Hpe.
      rewrite (count_retryEvents_failed op p n (0 + 1) iv lg e (fst (op (host w)))
                 (snd (op (host w))) Hpe Hp)
        by (rewrite E; discriminate).
      assert (Hone : ((if p (warnEvent lg (0 + 1) iv) then 1 else 0)
                      + (if p (EvSleep iv) then 1 else 0) = 1)%nat).
      { destruct Hp as [[Hw ->]|[Hw ->]]; now rewrite Hw. }
      destruct (attempts op n (snd (op (host w)))) as [|k'] eqn:Ek.
      + cbn [nthCall fst]. rewrite E. cbn [isNil]. lia.
      + destruct (isNil _); lia.
    - cbn [nthCall snd]. rewrite E. cbn [isNil].
      rewrite count_cons, count_nil, Hpe. reflexivity. }
  assert (Hge : isGit e = true -> isWarn e = false /\ isSleep e = false)
    by (destruct e; try discriminate; auto).
  destruct (Hge He) as [Hw Hs].
  rewrite (Hd isWarn Hw) by (left; split; [reflexivity|reflexivity]).
  rewrite (Hd isSleep Hs) by (right; split; [reflexivity|reflexivity]).
  split; [reflexivity|]. split; [reflexivity|].
  intros Hfail. subst last k.
  destruct (attempts_last op (S n) (host w) ("", None)) as [Hok|Hall];
    [congruence|].
  rewrite Hall in Hfail |- *.
  destruct (snd (fst (nthCall op ("", None) (S n) (host w))));
    [cbn [isNil]; lia|congruence].
Qed.

(** A loop that succeeds within its budget makes the same attempts with a
    larger budget. *)
Lemma attempts_larger (n n' : nat) (d : string * option error) x :
  (1 <= n <= n')%nat ->
  snd (fst (nthCall op d (attempts op n x) x)) = None ->
  attempts op n' x = attempts op n x
  /\ forall i iv lg e,
       retryEvents n' i iv lg e op x = retryEvents n i iv lg e op x.
Proof.
  revert n' d x. induction n as [|n IH]; intros n' d x Hn Hok; [lia|].
  destruct n' as [|n']; [lia|]. cbn [attempts retryEvents] in *.
  destruct (snd (fst (op x))) as [err|] eqn:E; [|split; reflexivity].
  rewrite nthCall_shift in Hok.
  destruct n as [|n].
  - cbn [attempts nthCall fst] in Hok. congruence.
  - destruct (IH n' (fst (op x)) (snd (op x)) ltac:(lia) Hok) as [Ha He].
    split; [now rewrite Ha|]. intros. now rewrite He.
Qed.

(** X3: when retryCommand succeeds with a budget of at least one attempt,
    every larger budget gives the same result, the same host state and
    the same log: the budget only matters to runs that fail. *)
Theorem retryCommand_larger_budget (retries retries' iv : Z) (lg : Logger)
    (e : Event) (out : string) w :
  1 <= retries <= retries' ->
  fst (retryCommand retries iv lg (hostOp e op) w) = Ret (out, None) ->
  retryCommand retries' iv lg (hostOp e op) w
  = retryCommand retries iv lg (hostOp e op) w.
Proof.
  intros Hr Hok. rewrite !retryCommand_run in *. cbn [fst] in Hok.
  injection Hok as Hok.
  destruct (attempts_larger (Z.to_nat retries) (Z.to_nat retries') ("", None)
              (host w) ltac:(lia)) as [Ha He].
  { now rewrite Hok. }
  now rewrite Ha, He.
Qed.

End RetryMore.

Lemma retryCommand_no_budget_witness :
  retryCommand 0 time_Second (mkLogger [])
    (hostOp (EvGit "" ["fetch"]) (sim_exec ["fetch"]))
    (simWorld [] [("boom", Some (ExitError 1))])
  = (Ret ("", None), simWorld [] [("boom", Some (ExitError 1))]).
Proof. apply retryCommand_no_budget. lia. Defined.

Lemma retryCommand_sleeps_after_each_failure_witness :
  let w := simWorld [] [("e1", Some (ExitError 1)); ("e2", Some (ExitError 1));
                        ("e3", Some (ExitError 1))] in
  count isSleep
    (added w (snd (retryCommand 3 time_Second (mkLogger [])
                     (hostOp (EvGit "" ["fetch"]) (sim_exec ["fetch"])) w)))
  = 3%nat.
Proof.
  intros w.
  destruct (retryCommand_sleeps_after_each_failure (sim_exec ["fetch"]) 3
              time_Second (mkLogger []) (EvGit "" ["fetch"]) w
              ltac:(lia) eq_refl) as (_ & _ & Hall).
  apply Hall. vm_compute. discriminate.
Defined.

Lemma retryCommand_larger_budget_witness :
  let w := simWorld [] [("e1", Some (ExitError 1)); ("ok", None)] in
  retryCommand 7 time_Second (mkLogger [])
    (hostOp (EvGit "" ["fetch"]) (sim_exec ["fetch"])) w
  = retryCommand 3 time_Second (mkLogger [])
      (hostOp (EvGit "" ["fetch"]) (sim_exec ["fetch"])) w.
Proof.
  intros w.
  apply (retryCommand_larger_budget (sim_exec ["fetch"]) 3 7 time_Second
           (mkLogger []) (EvGit "" ["fetch"]) "ok" w); [lia|].
  vm_compute. reflexivity.
Defined.

(** ** lockRepo and unlockRepo in one goroutine *)

Section LocksMore.
Context {Ext Ctx : Type} `{Host Ext Ctx}.
Implicit Types (w : World Ext) (k : string).

(** lockRepo on an idle world, written out. *)
Lemma lockRepo_idle k w :
  locksIdle w ->
  exists locks hp l,
    lockRepo k w
    = (Ret tt, mkWorld (host w) false locks (<[l := true]> hp) (events w))
    /\ locks !! k = Some l
    /\ (forall k' l', repoLocks w !! k' = Some l' -> locks !! k' = Some l')
    /\ (forall k' l', locks !! k' = Some l' -> l' <> l -> hp !! l' = Some false).
Proof.
  intros [Hmu Hidle]. unfold lockRepo. rewrite Hmu.
  destruct (repoLocks w !! k) as [l|] eqn:E.
  - rewrite E, (Hidle k l E). exists (repoLocks w), (mutexes w), l.
    split; [reflexivity|]. split; [exact E|]. split; [auto|].
    intros k' l' Hk' _. now apply (Hidle k').
  - rewrite !lookup_insert_eq.
    exists (<[k := fresh (dom (mutexes w))]> (repoLocks w)),
      (<[fresh (dom (mutexes w)) := false]> (mutexes w)), (fresh (dom (mutexes w))).
    split; [reflexivity|]. split; [apply lookup_insert_eq|]. split.
    + intros k' l' Hk'. rewrite lookup_insert_ne; [exact Hk'|congruence].
    + intros k' l' Hk' Hne. rewrite lookup_insert_ne by congruence.
      rewrite lookup_insert in Hk'. case_decide; [congruence|].
      now apply (Hidle k').
Qed.

(** X4: in one goroutine lockRepo followed by unlockRepo returns when no
    call is under way, leaves the host and the log alone and every mutex
    unlocked again; the repository now has its entry in the registry and
    no entry was removed or replaced. *)
Theorem lockRepo_unlockRepo_round_trip k w :
  locksIdle w ->
  exists w',
    (let* _ := lockRepo k in unlockRepo k) w = (Ret tt, w')
    /\ host w' = host w /\ events w' = events w
    /\ locksIdle w'
    /\ is_Some (repoLocks w' !! k)
    /\ (forall k' l', repoLocks w !! k' = Some l' -> repoLocks w' !! k' = Some l').
Proof.
  intros Hidle.
  destruct (lockRepo_idle k w Hidle) as (locks & hp & l & El & Hl & Hkeep & Hfree).
  unfold bind. rewrite El. unfold unlockRepo. cbn [mu repoLocks mutexes host events].
  rewrite Hl, lookup_insert_eq. eexists. split; [reflexivity|].
  cbn [mu repoLocks mutexes host events].
  split; [reflexivity|]. split; [reflexivity|]. split; [|split; [eauto|exact Hkeep]].
  split; [reflexivity|]. cbn [repoLocks mutexes]. intros k' l' Hk'.
  destruct (decide (l' = l)) as [->|Hne]; [apply lookup_insert_eq|].
  rewrite !lookup_insert_ne by congruence. now apply (Hfree k').
Qed.

(** X5: unlockRepo without a lockRepo before it does not return.  For a
    repository with no entry in the registry it panics on the nil pointer;
    for one whose mutex is not locked the runtime stops the process.  Both
    happen between c.mu.Lock() and c.mu.Unlock(), so the registry mutex is
    still held: the host, the log, the registry and the mutexes of the
    repositories are as before, and once the panic is recovered every
    later lockRepo, unlockRepo and Clone on this client, for any
    repository, waits for ever. *)
Theorem unlockRepo_without_lockRepo k w :
  locksIdle w ->
  let r := unlockRepo k w in
  (repoLocks w !! k = None -> outcomeOf r = Panic "nil pointer dereference")
  /\ (is_Some (repoLocks w !! k) ->
      outcomeOf r = Fatal "sync: unlock of unlocked mutex")
  /\ mu (worldOf r) = true
  /\ host (worldOf r) = host w /\ events (worldOf r) = events w
  /\ repoLocks (worldOf r) = repoLocks w /\ mutexes (worldOf r) = mutexes w
  /\ (forall k', lockRepo k' (worldOf r) = (Blocked, worldOf r)
                 /\ unlockRepo k' (worldOf r) = (Blocked, worldOf r))
  /\ (forall (c : client) (ctx : Ctx) (base name destination : string),
        Clone c ctx base name destination (worldOf r) = (Blocked, worldOf r)).
Proof.
  intros [Hmu Hidle] r.
  assert (Hr : mu (worldOf r) = true
               /\ host (worldOf r) = host w /\ events (worldOf r) = events w
               /\ repoLocks (worldOf r) = repoLocks w
               /\ mutexes (worldOf r) = mutexes w
               /\ (repoLocks w !! k = None
                   -> outcomeOf r = Panic "nil pointer dereference")
               /\ (is_Some (repoLocks w !! k)
                   -> outcomeOf r = Fatal "sync: unlock of unlocked mutex")).
  { subst r. unfold outcomeOf, worldOf, unlockRepo. rewrite Hmu. cbv zeta.
    destruct (repoLocks w !! k) as [l|] eqn:E.
    - rewrite (Hidle k l E). cbn. repeat split; try reflexivity.
      intros; discriminate.
    - cbn. repeat split; try reflexivity. intros [? ?]; discriminate. }
  destruct Hr as (Hheld & Hh & He & Hl & Hm & Hnil & Hfatal).
  split; [exact Hnil|]. split; [exact Hfatal|]. split; [exact Hheld|].
  split; [exact Hh|]. split; [exact He|]. split; [exact Hl|]. split; [exact Hm|].
  split.
  - intros k'. unfold lockRepo, unlockRepo. now rewrite Hheld.
  - intros c ctx base name destination. unfold Clone, bind, lockRepo.
    now rewrite Hheld.
Qed.

(** X6: lockRepo is not reentrant: after a lockRepo that returned, a
    second lockRepo for the same repository in the same goroutine waits
    for ever, and changes nothing. *)
Theorem lockRepo_twice_blocks k w w1 :
  lockRepo k w = (Ret tt, w1) -> lockRepo k w1 = (Blocked, w1).
Proof.
  unfold lockRepo. destruct (mu w); [discriminate|].
  destruct (repoLocks w !! k) as [l|] eqn:E.
  - rewrite E. destruct (mutexes w !! l) as [[|]|] eqn:Eh; try discriminate.
    intros [= <-]. cbn [mu repoLocks mutexes host events].
    rewrite E. cbv beta iota. now rewrite E, lookup_insert_eq.
  - rewrite !lookup_insert_eq. intros [= <-].
    cbn [mu repoLocks mutexes host events].
    rewrite lookup_insert_eq. cbv beta iota.
    now rewrite !lookup_insert_eq.
Qed.

End LocksMore.

Lemma simWorld_locksIdle (paths : list string)
    (script : list (string * option error)) :
  locksIdle (simWorld paths script).
Proof. split; [reflexivity|]. intros k l. simpl. now rewrite lookup_empty. Qed.

Lemma lockRepo_unlockRepo_round_trip_witness :
  exists w',
    (let* _ := lockRepo "org/repo" in unlockRepo "org/repo") (simWorld [] [])
    = (Ret tt, w')
    /\ is_Some (repoLocks w' !! "org/repo").
Proof.
  destruct (lockRepo_unlockRepo_round_trip "org/repo" (simWorld [] [])
              (simWorld_locksIdle _ _))
    as (w' & E & _ & _ & _ & Hk & _).
  exists w'. split; assumption.
Defined.

Lemma unlockRepo_without_lockRepo_witness :
  let r := unlockRepo "org/repo" (simWorld [] []) in
  outcomeOf r = Panic "nil pointer dereference"
  /\ Clone simClient tt "https://github.com" "org/other" "/work/d1" (worldOf r)
     = (Blocked, worldOf r).
Proof.
  intros r.
  destruct (unlockRepo_without_lockRepo (Ctx := unit) "org/repo" (simWorld [] [])
              (simWorld_locksIdle _ _)) as (Hnil & _ & _ & _ & _ & _ & _ & _ & HC).
  split; [apply Hnil; reflexivity|apply HC].
Defined.

Lemma lockRepo_twice_blocks_witness :
  outcomeOf (lockRepo "org/repo" (worldOf (lockRepo "org/repo" (simWorld [] []))))
  = Blocked.
Proof.
  rewrite (lockRepo_twice_blocks "org/repo" (simWorld [] [])
             (worldOf (lockRepo "org/repo" (simWorld [] []))));
    [reflexivity|vm_compute; reflexivity].
Defined.

(** ** Clone: every return path *)

Section CloneMore.
Context {Ext Ctx : Type} `{Host Ext Ctx}.
Variables (c : client) (ctx : Ctx) (base repoFullName destination : string).

Local Abbreviation path := (repoCachePath c repoFullName).
Local Abbreviation remote := (base ++ "/" ++ repoFullName).
Local Abbreviation body := (cloneLocked c ctx base repoFullName destination).
Local Abbreviation call := (Clone c ctx base repoFullName destination).
Local Abbreviation lg :=
  (Logger_With (logger c)
     [("base", base); ("repo", repoFullName); ("repo-cache-path", path)]).
Local Abbreviation handle :=
  (NewRepo repoFullName destination (gitPath c) remote (logger c)).
Local Abbreviation identity :=
  (negb (String.eqb (username c) "") || negb (String.eqb (email c) "")).
Local Abbreviation evLocal := (EvGit "" ["clone"; path; destination]).
Local Abbreviation evUser := (EvSetUser destination (username c) (email c)).

(** The end of Clone: what it returns and what it logs. *)
Lemma cloneFromLocal_tail (w : World Ext) :
  exists res x tail,
    cloneFromLocal c ctx lg remote repoFullName destination w
    = (Ret res, upd w x tail)
    /\ (count isLocalClone tail <= 1)%nat
    /\ (count isSetUser tail <= 1)%nat
    /\ (identity = false -> count isSetUser tail = O)
    /\ (forall Q : Event -> Prop,
          (forall l m f, Q (EvLog l m f)) -> (forall p m, Q (EvMkdirAll p m)) ->
          Q evLocal -> Q evUser -> Forall Q tail)
    /\ ((res = (Some handle, None)
         /\ count isLocalClone tail = 1%nat
         /\ count isSetUser tail = (if identity then 1 else 0)%nat
         /\ exists post,
              tail = EvMkdirAll destination os_ModePerm :: evLocal :: post
              /\ count isGit post = O)
        \/ exists e, res = (None, Some e)).
Proof.
  rewrite cloneFromLocal_cases. cbv zeta.
  repeat match goal with
         | |- context [match ?d with _ => _ end] => destruct d eqn:?
         end;
    do 3 eexists; (split; [reflexivity|]);
    (split; [count_events; cbn; lia|]);
    (split; [count_events; cbn; lia|]);
    (split; [try discriminate; intros _; now count_events|]);
    (split; [intros Q Hlog Hmk Hloc Husr; repeat constructor; auto|]);
    first [ right; eexists; reflexivity
          | left; split; [reflexivity|]; split; [now count_events|];
            split; [now count_events|]; eexists; split; [reflexivity|];
            now count_events ].
Qed.

(** The body of Clone up to the clone into the destination: either it
    returns an error, or it goes on with the end of Clone. *)
Lemma cloneLocked_split (w : World Ext) :
  exists pre,
    count isLocalClone pre = O /\ count isSetUser pre = O
    /\ (forall Q : Event -> Prop,
          (forall l m f, Q (EvLog l m f)) -> (forall d, Q (EvSleep d)) ->
          (forall p m, Q (EvMkdirAll p m)) ->
          Q (EvGit "" ["clone"; "--mirror"; remote; path]) ->
          Q (EvGit path ["fetch"]) -> Forall Q pre)
    /\ ((exists e x, body w = (Ret (None, Some e), upd w x pre))
        \/ (exists x0,
              body w
              = cloneFromLocal c ctx lg remote repoFullName destination
                  (upd w x0 pre))).
Proof.
  assert (HQ : forall (Q : Event -> Prop) n i iv lg0 e op (x : Ext),
             Q e -> (forall l m f, Q (EvLog l m f)) -> (forall d, Q (EvSleep d)) ->
             Forall Q (retryEvents n i iv lg0 e op x)).
  { intros Q n. induction n as [|n IH]; intros i iv lg0 e op x He Hl Hs; simpl;
      [constructor|].
    destruct (snd (fst (op x))); repeat constructor; auto. apply Hl. }
  destruct (mirror_trichotomy c repoFullName (host w))
    as [[Hp Hm]|[[Hp Hm]|[Hp Hm]]].
  - rewrite (cloneLocked_present c ctx base repoFullName destination w Hp).
    cbv zeta.
    match goal with |- context [match ?d with _ => _ end] => destruct d end.
    + eexists. split; [|split; [|split; [|left; do 2 eexists; reflexivity]]].
      * now count_events.
      * now count_events.
      * intros Q Hl Hs Hmk Hmi Hfe. rewrite !Forall_app.
        repeat split; [repeat constructor; apply Hl|now apply HQ
                      |repeat constructor; apply Hl].
    + eexists. split; [|split; [|split; [|right; eexists; reflexivity]]].
      * now count_events.
      * now count_events.
      * intros Q Hl Hs Hmk Hmi Hfe. rewrite !Forall_app.
        split; [repeat constructor; apply Hl|now apply HQ].
  - rewrite (cloneLocked_missing c ctx base repoFullName destination w Hm).
    cbv zeta. destruct (parentReady c repoFullName (host w)) eqn:Er.
    + match goal with |- context [match ?d with _ => _ end] => destruct d end.
      * eexists. split; [|split; [|split; [|left; do 2 eexists; reflexivity]]].
        -- now count_events.
        -- now count_events.
        -- intros Q Hl Hs Hmk Hmi Hfe. rewrite !Forall_app.
           repeat split; [repeat constructor; [apply Hl|apply Hmk]|now apply HQ
                         |repeat constructor; apply Hl].
      * eexists. split; [|split; [|split; [|right; eexists; reflexivity]]].
        -- now count_events.
        -- now count_events.
        -- intros Q Hl Hs Hmk Hmi Hfe. rewrite !Forall_app.
           split; [repeat constructor; [apply Hl|apply Hmk]|now apply HQ].
    + unfold parentReady in Er.
      destruct (fst (parentDir c repoFullName (host w))) as [e|] eqn:Ee;
        [|discriminate].
      eexists. split; [|split; [|split; [|left; do 2 eexists; reflexivity]]].
      * now count_events.
      * now count_events.
      * intros Q Hl Hs Hmk Hmi Hfe. repeat constructor; [apply Hl|apply Hmk].
  - rewrite (cloneLocked_ambiguous c ctx base repoFullName destination w Hp Hm).
    unfold mirrorPresent in Hp.
    destruct (os_Stat path (host w)) as [e|] eqn:Es; [|discriminate].
    exists []. split; [reflexivity|]. split; [reflexivity|].
    split; [intros; constructor|]. left. exists e, (host w). now rewrite upd_id.
Qed.

Lemma count_zero_Forall (p : Event -> bool) (evs : list Event) :
  Forall (fun ev => p ev = false) evs -> count p evs = O.
Proof.
  induction 1 as [|ev evs Hev _ IH]; [reflexivity|].
  now rewrite count_cons, Hev, IH.
Qed.

(** Clone on an idle world, with the world it ends in. *)
Lemma Clone_idle (w : World Ext) :
  locksIdle w ->
  exists res w',
    call w = (Ret res, w')
    /\ locksIdle w'
    /\ is_Some (repoLocks w' !! repoFullName)
    /\ (forall k l, repoLocks w !! k = Some l -> repoLocks w' !! k = Some l).
Proof.
  intros Hidle.
  destruct (lockRepo_idle repoFullName w Hidle)
    as (locks & hp & l & El & Hl & Hkeep & Hfree).
  destruct (cloneLocked_shape c ctx base repoFullName destination
              (mkWorld (host w) false locks (<[l := true]> hp) (events w)))
    as (res & x & evs & E).
  exists res. eexists. split.
  - unfold Clone, bind at 1. rewrite El. unfold defer. rewrite E. unfold bind.
    rewrite (unlockRepo_held _ _ l); [|reflexivity|exact Hl|apply lookup_insert_eq].
    reflexivity.
  - cbn [upd mu repoLocks mutexes host events].
    split; [|split; [eauto|exact Hkeep]].
    split; [reflexivity|]. cbn [repoLocks mutexes]. intros k' l' Hk'.
    destruct (decide (l' = l)) as [->|Hne]; [apply lookup_insert_eq|].
    rewrite !lookup_insert_ne by congruence. now apply (Hfree k').
Qed.

(** X7: when no call is under way Clone returns, with a result or an
    error, never waits and never panics; the deferred unlockRepo has run
    on every path, so no call is under way afterwards either; the
    repository has its entry in the registry and no entry was removed or
    replaced. *)
Theorem Clone_returns_and_releases (w : World Ext) :
  locksIdle w ->
  exists res w',
    call w = (Ret res, w')
    /\ locksIdle w'
    /\ is_Some (repoLocks w' !! repoFullName)
    /\ (forall k l, repoLocks w !! k = Some l -> repoLocks w' !! k = Some l).
Proof.
  intros Hidle.
  destruct (Clone_idle w Hidle) as (res & w' & E & Hidle' & Hk & Hkeep).
  exists res, w'. split; [exact E|]. split; [exact Hidle'|].
  split; [exact Hk|exact Hkeep].
Qed.

(** X8: Clone does nothing before it has the lock of the repository: when
    the registry mutex or the mutex of the repository is held, it waits,
    and no command has run, nothing is logged and nothing has changed. *)
Theorem Clone_waits_before_anything (w : World Ext) :
  mu w = true
  \/ (exists l, repoLocks w !! repoFullName = Some l /\ mutexes w !! l = Some true) ->
  call w = (Blocked, w).
Proof.
  intros Hheld. unfold Clone, bind, lockRepo.
  destruct (mu w) eqn:Emu; [reflexivity|].
  destruct Hheld as [Hmu|(l & Hl & Hm)]; [discriminate|].
  rewrite Hl. cbv beta iota. rewrite Hl, Hm.
  destruct w; cbn in *. now subst.
Qed.

(** X9: Clone returns either the handle of the new working copy with a nil
    error, or no handle with an error that is not nil; the handle is bound
    to the full name, the destination, the git binary of the client and
    the remote <base>/<full name>. *)
Theorem Clone_handle_or_error (w : World Ext) :
  lockFree repoFullName w ->
  outcomeOf (call w) = Ret (Some handle, None)
  \/ exists e, outcomeOf (call w) = Ret (None, Some e).
Proof.
  intros Hfree.
  destruct (Clone_locked c ctx base repoFullName destination w Hfree)
    as (wl & _ & -> & _).
  destruct (cloneLocked_split wl) as (pre & _ & _ & _ & [(e & x & ->)|(x0 & ->)]).
  - right. exists e. reflexivity.
  - destruct (cloneFromLocal_tail (upd wl x0 pre))
      as (res & x & tail & -> & _ & _ & _ & _ & [(-> & _)|(e & ->)]).
    + now left.
    + right. now exists e.
Qed.

(** X10: when os.Stat on the mirror path fails with another error than
    "does not exist", Clone returns that very error, not wrapped, and has
    run no command, made no directory and logged nothing. *)
Theorem Clone_stat_error (w : World Ext) (e : error) :
  lockFree repoFullName w ->
  os_Stat path (host w) = Some e -> e <> ErrNotExist ->
  outcomeOf (call w) = Ret (None, Some e)
  /\ added w (worldOf (call w)) = []
  /\ host (worldOf (call w)) = host w.
Proof.
  intros Hfree Hs Hne.
  destruct (Clone_locked c ctx base repoFullName destination w Hfree)
    as (wl & Hh & -> & -> & -> & _).
  rewrite <- Hh in *.
  rewrite cloneLocked_ambiguous.
  - rewrite Hs. unfold outcomeOf, worldOf, added. cbn [fst snd].
    now rewrite drop_all.
  - unfold mirrorPresent. now rewrite Hs.
  - unfold mirrorMissing. rewrite Hs. destruct e; try reflexivity. congruence.
Qed.

(** X11: on a cache miss where the three attempts of the mirror clone
    fail, Clone returns the error of the last attempt, wrapped; it has
    made the parent directory and run the three mirror clones, and
    nothing for the destination: no os.MkdirAll of it and no local
    clone. *)
Theorem Clone_mirror_clone_failure (w : World Ext)
    (o1 o2 o3 : string) (e1 e2 e3 : error) (x1 x2 x3 : Ext) :
  lockFree repoFullName w ->
  mirrorMissing c repoFullName (host w) = true ->
  parentReady c repoFullName (host w) = true ->
  mirrorCloneOp c ctx base repoFullName (snd (parentDir c repoFullName (host w)))
  = ((o1, Some e1), x1) ->
  mirrorCloneOp c ctx base repoFullName x1 = ((o2, Some e2), x2) ->
  mirrorCloneOp c ctx base repoFullName x2 = ((o3, Some e3), x3) ->
  let evs := added w (worldOf (call w)) in
  let evMirror := EvGit "" ["clone"; "--mirror"; remote; path] in
  outcomeOf (call w)
  = Ret (None, Some (errorString ("failed to clone from remote: " ++ Error e3)))
  /\ host (worldOf (call w)) = x3
  /\ evs =
     [EvLog InfoLevel ("cloning " ++ repoFullName ++ " for the first time")
        (lg_fields lg ++ []);
      EvMkdirAll (filepath_Dir path) os_ModePerm;
      evMirror; warnEvent lg 1 time_Second; EvSleep time_Second;
      evMirror; warnEvent lg 2 time_Second; EvSleep time_Second;
      evMirror; warnEvent lg 3 time_Second; EvSleep time_Second;
      EvLog ErrorLevel "failed to clone from remote"
        (lg_fields lg ++ [("out", o3); ("error", Error e3)])]
  /\ count isLocalClone evs = O.
Proof.
  intros Hfree Hm Hr E1 E2 E3.
  destruct (Clone_locked c ctx base repoFullName destination w Hfree)
    as (wl & Hh & Ho & Hx & Ha & _).
  cbv zeta. rewrite Ho, Hx, Ha. rewrite <- Hh in *.
  rewrite (cloneLocked_missing c ctx base repoFullName destination wl Hm).
  cbv zeta. rewrite Hr.
  repeat (cbn [attempts nthCall retryEvents fst snd]; rewrite ?E1, ?E2, ?E3).
  unfold outcomeOf, worldOf. cbn [fst snd].
  rewrite added_upd. cbn [host upd app].
  do 3 (split; [reflexivity|]). reflexivity.
Qed.

(** X12: Clone configures the identity at most once, and only with the
    user name and e-mail of the client on the destination; never when
    both are empty; and on every successful Clone of a client that has a
    user name or an e-mail, exactly once. *)
Theorem Clone_identity (w : World Ext) :
  lockFree repoFullName w ->
  let evs := added w (worldOf (call w)) in
  (count isSetUser evs <= 1)%nat
  /\ (username c = "" -> email c = "" -> count isSetUser evs = O)
  /\ (forall d u m, In (EvSetUser d u m) evs ->
        d = destination /\ u = username c /\ m = email c)
  /\ (forall r, outcomeOf (call w) = Ret (Some r, None) ->
        username c <> "" \/ email c <> "" -> count isSetUser evs = 1%nat).
Proof.
  intros Hfree.
  destruct (Clone_locked c ctx base repoFullName destination w Hfree)
    as (wl & _ & Ho & _ & Ha & _).
  cbv zeta. rewrite Ho, Ha. clear Ho Ha.
  set (Q := fun ev => forall d u m, ev = EvSetUser d u m ->
                        d = destination /\ u = username c /\ m = email c).
  destruct (cloneLocked_split wl)
    as (pre & Hloc & Husr & HQ & [(e & x & ->)|(x0 & ->)]).
  - unfold outcomeOf, worldOf. cbn [fst snd]. rewrite added_upd, Husr.
    split; [lia|]. split; [reflexivity|]. split; [|discriminate].
    intros d u m Hin.
    assert (HF : Forall Q pre) by (apply HQ; unfold Q; intros; discriminate).
    rewrite Forall_forall in HF. apply (HF _ (proj2 (list_elem_of_In _ _) Hin)).
    reflexivity.
  - destruct (cloneFromLocal_tail (upd wl x0 pre))
      as (res & x & tail & -> & _ & Hle & Hnone & HQt & Hres).
    rewrite upd_upd. unfold outcomeOf, worldOf. cbn [fst snd].
    rewrite added_upd, count_app, Husr.
    split; [lia|]. split; [|split].
    + intros Hu He. rewrite Hnone; [reflexivity|]. now rewrite Hu, He.
    + intros d u m Hin.
      assert (HF : Forall Q (pre ++ tail)).
      { rewrite Forall_app. split.
        - apply HQ; unfold Q; intros; discriminate.
        - apply HQt; unfold Q; try (intros; discriminate).
          intros d' u' m' [= <- <- <-]. auto. }
      rewrite Forall_forall in HF. apply (HF _ (proj2 (list_elem_of_In _ _) Hin)).
      reflexivity.
    + intros r Hr Hid. destruct Hres as [(_ & _ & -> & _)|(e & ->)]; [|discriminate].
      destruct (String.eqb_spec (username c) ""), (String.eqb_spec (email c) "");
        cbn; try reflexivity. tauto.
Qed.

(** The git commands of Clone. *)
Lemma Clone_git_events (w : World Ext) (ev : Event) :
  lockFree repoFullName w ->
  In ev (added w (worldOf (call w))) -> isGit ev = true ->
  cloneCommand c base repoFullName destination ev.
Proof.
  intros Hfree.
  destruct (Clone_locked c ctx base repoFullName destination w Hfree)
    as (wl & _ & _ & _ & -> & _).
  set (Q := fun ev => isGit ev = true ->
                      cloneCommand c base repoFullName destination ev).
  assert (Qm : Q (EvGit "" ["clone"; "--mirror"; remote; path]))
    by (intros _; left; reflexivity).
  assert (Qf : Q (EvGit path ["fetch"])) by (intros _; right; left; reflexivity).
  assert (Ql : Q evLocal) by (intros _; right; right; reflexivity).
  destruct (cloneLocked_split wl)
    as (pre & _ & _ & HQ & [(e & x & ->)|(x0 & ->)]).
  - unfold worldOf. cbn [snd]. rewrite added_upd. intros Hin.
    assert (HF : Forall Q pre) by (apply HQ; unfold Q; auto; discriminate).
    rewrite Forall_forall in HF. exact (HF _ (proj2 (list_elem_of_In _ _) Hin)).
  - destruct (cloneFromLocal_tail (upd wl x0 pre))
      as (res & x & tail & -> & _ & _ & _ & HQt & _).
    rewrite upd_upd. unfold worldOf. cbn [snd]. rewrite added_upd. intros Hin.
    assert (HF : Forall Q (pre ++ tail)).
    { rewrite Forall_app. split.
      - apply HQ; unfold Q; auto; discriminate.
      - apply HQt; unfold Q; auto; discriminate. }
    rewrite Forall_forall in HF. exact (HF _ (proj2 (list_elem_of_In _ _) Hin)).
Qed.



End CloneMore.

Lemma Clone_returns_and_releases_witness :
  exists res w',
    Clone simClient tt "https://github.com" "org/repo" "/work/d1"
      (simWorld [] [("fatal", Some (ExitError 128)); ("fatal", Some (ExitError 128));
                    ("fatal", Some (ExitError 128))])
    = (Ret res, w')
    /\ locksIdle w'.
Proof.
  destruct (Clone_returns_and_releases simClient tt "https://github.com" "org/repo"
              "/work/d1"
              (simWorld [] [("fatal", Some (ExitError 128));
                            ("fatal", Some (ExitError 128));
                            ("fatal", Some (ExitError 128))])
              (simWorld_locksIdle _ _))
    as (res & w' & E & Hidle & _).
  exists res, w'. split; assumption.
Defined.

Lemma Clone_waits_before_anything_witness :
  let w := worldOf (lockRepo "org/repo" (simWorld [] [])) in
  Clone simClient tt "https://github.com" "org/repo" "/work/d1" w = (Blocked, w).
Proof.
  intros w.
  apply (Clone_waits_before_anything simClient tt "https://github.com" "org/repo"
           "/work/d1" w).
  right. exists 0%nat. split; vm_compute; reflexivity.
Defined.

Lemma Clone_handle_or_error_witness :
  outcomeOf (Clone simClient tt "https://github.com" "org/repo" "/work/d1"
               (simWorld [] []))
  = Ret (Some (NewRepo "org/repo" "/work/d1" "/usr/bin/git"
                 "https://github.com/org/repo" (mkLogger [])), None)
  \/ exists e,
       outcomeOf (Clone simClient tt "https://github.com" "org/repo" "/work/d1"
                    (simWorld [] []))
       = Ret (None, Some e).
Proof.
  apply (Clone_handle_or_error simClient tt "https://github.com" "org/repo"
           "/work/d1" (simWorld [] []) (simWorld_lockFree _ _ _)).
Defined.

(** A host whose os.Stat is refused. *)
Lemma Clone_stat_error_witness :
  let denied : Host Sim unit :=
    {| os_Stat _ _ := Some ErrPermission;
       os_MkdirAll p _ x := (None, sim_create p x);
       os_RemoveAll _ x := (None, x);
       exec_CombinedOutput _ _ args _ x := sim_exec args x;
       repo_SetUser _ _ _ _ x := (None, x) |} in
  outcomeOf (Clone (H := denied) simClient tt "https://github.com" "org/repo"
               "/work/d1" (simWorld [] []))
  = Ret (None, Some ErrPermission).
Proof.
  intros denied.
  apply (Clone_stat_error (H := denied) simClient tt "https://github.com"
           "org/repo" "/work/d1" (simWorld [] []) ErrPermission
           (simWorld_lockFree _ _ _) eq_refl).
  discriminate.
Defined.

Lemma Clone_mirror_clone_failure_witness :
  let w := simWorld []
             [("e1", Some (ExitError 128)); ("e2", Some (ExitError 128));
              ("e3", Some (ExitError 128))] in
  outcomeOf (Clone simClient tt "https://github.com" "org/repo" "/work/d1" w)
  = Ret (None, Some (errorString "failed to clone from remote: exit status 128")).
Proof.
  intros w.
  refine (proj1 (Clone_mirror_clone_failure simClient tt "https://github.com"
                   "org/repo" "/work/d1" w _ _ _ _ _ _ _ _ _
                   (simWorld_lockFree _ _ _) eq_refl eq_refl
                   eq_refl eq_refl eq_refl)).
Defined.

Lemma Clone_identity_witness :
  let cl := mkClient "bot" "" "/usr/bin/git" "/tmp/gitcache1" (mkLogger []) in
  let w := simWorld [] [] in
  count isSetUser
    (added w (worldOf (Clone cl tt "https://github.com" "org/repo" "/work/d1" w)))
  = 1%nat.
Proof.
  intros cl w.
  destruct (Clone_identity cl tt "https://github.com" "org/repo" "/work/d1" w
              (simWorld_lockFree _ _ _)) as (_ & _ & _ & Hone).
  eapply Hone; [vm_compute; reflexivity|left; discriminate].
Defined.



(** ** GetLatestRemoteHashForBranch, NewClient and the mirror paths *)

Section ClientMore.
Context {Ext Ctx : Type} `{Host Ext Ctx} `{Startup Ext}.

(** X15: GetLatestRemoteHashForBranch takes no lock: whatever mutexes are
    held it returns, never waits and never panics, and leaves the
    registry and the mutexes as they are; it runs the listing command at
    least once and at most three times, and when it returns an error the
    hash is empty. *)
Theorem GetLatestRemoteHashForBranch_takes_no_lock (c : client) (ctx : Ctx)
    (remote branch : string) (w : World Ext) :
  exists hash err w',
    GetLatestRemoteHashForBranch c ctx remote branch w = (Ret (hash, err), w')
    /\ mu w' = mu w /\ repoLocks w' = repoLocks w /\ mutexes w' = mutexes w
    /\ (1 <= count isGit (added w w') <= 3)%nat
    /\ (err <> None -> hash = "").
Proof.
  pose proof (listing_run c ctx branch w) as L. cbv zeta in L.
  set (op := exec_CombinedOutput ctx (gitPath c)
               ["ls-remote"; "refs/heads/" ++ branch] "") in *.
  destruct (nthCall op ("", None) (attempts op 3 (host w)) (host w))
    as [[out err] x] eqn:En.
  cbn [fst snd] in L.
  rewrite (GetLatest_after_listing c ctx remote branch _ _ out err L).
  assert (Hn : (1 <= attempts op 3 (host w) <= 3)%nat)
    by (split; [apply attempts_pos; lia|apply attempts_bound]).
  destruct err as [e|].
  - do 3 eexists. split; [reflexivity|]. rewrite upd_upd.
    cbn [upd mu repoLocks mutexes]. rewrite added_upd.
    do 3 (split; [reflexivity|]). split; [|reflexivity].
    count_events. lia.
  - do 3 eexists. split; [reflexivity|].
    cbn [upd mu repoLocks mutexes]. rewrite added_upd.
    do 3 (split; [reflexivity|]). split; [|congruence].
    count_events. lia.
Qed.

(** X16: NewClient fails when git is not found, and then asks for no
    temporary directory and leaves everything as it is; it fails when the
    temporary directory cannot be made; in both cases it returns no
    client and the cause in the error.  Otherwise it returns a client with
    the given user name, e-mail and logger, the path of git that was
    found and the new directory as cache root. *)
Theorem NewClient_result (user mail : string) (lg : Logger) (w : World Ext) :
  let r := NewClient user mail lg w in
  (forall p e, exec_LookPath "git" (host w) = (p, Some e) ->
     r = (Ret (None, Some (errorString
                             ("unabled to find the path of git: " ++ Error e))), w))
  /\ (forall p d e x,
        exec_LookPath "git" (host w) = (p, None) ->
        ioutil_TempDir "" "gitcache" (host w) = ((d, Some e), x) ->
        fst r
        = Ret (None,
               Some (errorString
                       ("unabled to create a temporary directory for git cache: "
                        ++ Error e))))
  /\ (forall p d x,
        exec_LookPath "git" (host w) = (p, None) ->
        ioutil_TempDir "" "gitcache" (host w) = ((d, None), x) ->
        fst r = Ret (Some (mkClient user mail p d lg), None)
        /\ host (snd r) = x)
  /\ (forall cl e, fst r <> Ret (Some cl, Some e))
  /\ fst r <> Ret (None, None).
Proof.
  cbv zeta. unfold NewClient.
  destruct (exec_LookPath "git" (host w)) as [p [e|]] eqn:El.
  - split; [intros ? ? [= <- <-]; reflexivity|].
    split; [intros; discriminate|]. split; [intros; discriminate|].
    split; [intros; discriminate|discriminate].
  - destruct (ioutil_TempDir "" "gitcache" (host w)) as [[d [e|]] x] eqn:Et.
    + split; [intros; discriminate|].
      split; [intros ? ? ? ? _ [= <- <- <-]; reflexivity|].
      split; [intros; discriminate|]. split; [intros; discriminate|discriminate].
    + split; [intros; discriminate|]. split; [intros; discriminate|].
      split; [intros ? ? ? [= <-] [= <- <-]; split; reflexivity|].
      split; [intros; discriminate|discriminate].
Qed.

(** X17: a client that NewClient returned starts with an empty registry
    and no mutex held, so its Clone calls, one after the other, all
    return: each leaves no call under way and the repository in the
    registry. *)
Theorem NewClient_then_Clone (user mail : string) (lg : Logger)
    (w w1 : World Ext) (cl : client) :
  NewClient user mail lg w = (Ret (Some cl, None), w1) ->
  repoLocks w1 = ∅ /\ locksIdle w1
  /\ forall (ctx : Ctx) (base name destination : string),
       exists res w2,
         Clone cl ctx base name destination w1 = (Ret res, w2)
         /\ locksIdle w2 /\ is_Some (repoLocks w2 !! name)
         /\ forall (ctx' : Ctx) (base' name' destination' : string),
              exists res' w3,
                Clone cl ctx' base' name' destination' w2 = (Ret res', w3)
                /\ locksIdle w3 /\ is_Some (repoLocks w3 !! name)
                /\ is_Some (repoLocks w3 !! name').
Proof.
  unfold NewClient.
  destruct (exec_LookPath "git" (host w)) as [p [e|]]; [discriminate|].
  destruct (ioutil_TempDir "" "gitcache" (host w)) as [[d [e|]] x];
    [discriminate|].
  intros [= <- <-].
  assert (Hidle : locksIdle (mkWorld x false (∅ : gmap string nat)
                               (∅ : gmap nat bool) (events w))).
  { split; [reflexivity|]. intros k l. cbn [repoLocks]. now rewrite lookup_empty. }
  split; [reflexivity|]. split; [exact Hidle|].
  intros ctx base name destination.
  destruct (Clone_idle (mkClient user mail p d lg) ctx base name destination _ Hidle)
    as (res & w2 & E & Hidle2 & Hk & _).
  exists res, w2. split; [exact E|]. split; [exact Hidle2|]. split; [exact Hk|].
  intros ctx' base' name' destination'.
  destruct (Clone_idle (mkClient user mail p d lg) ctx' base' name' destination'
              w2 Hidle2)
    as (res' & w3 & E' & Hidle3 & Hk' & Hkeep).
  exists res', w3. split; [exact E'|]. split; [exact Hidle3|].
  split; [|exact Hk']. destruct Hk as [l Hl]. exists l. now apply Hkeep.
Qed.

End ClientMore.

Lemma append_cancel_l (p a b : string) : p ++ a = p ++ b -> a = b.
Proof. induction p as [|x p IH]; simpl; [auto|]. intros [= E]. auto. Qed.

Lemma append_length (a b : string) :
  String.length (a ++ b) = (String.length a + String.length b)%nat.
Proof. induction a as [|x a IH]; simpl; [reflexivity|]. now rewrite IH. Qed.

Lemma append_cancel_r (a b s : string) : a ++ s = b ++ s -> a = b.
Proof.
  revert b. induction a as [|x a IH]; intros [|y b] E.
  - reflexivity.
  - apply (f_equal String.length) in E. simpl in E. rewrite append_length in E. lia.
  - apply (f_equal String.length) in E. simpl in E. rewrite append_length in E. lia.
  - simpl in E. injection E as -> E. f_equal. auto.
Qed.

(** X18: under a clean cache root two different clean repository names
    have different mirror paths: no two such repositories share a
    mirror. *)
Theorem repoCachePath_injective (c : client) (name1 name2 : string) :
  cleanAbs (cacheDir c) = true ->
  cleanRel name1 = true -> cleanRel name2 = true ->
  name1 <> name2 ->
  repoCachePath c name1 <> repoCachePath c name2.
Proof.
  intros Hr H1 H2 Hne E. apply Hne. unfold repoCachePath in E.
  rewrite (Join_clean _ _ Hr H1), (Join_clean _ _ Hr H2) in E.
  apply append_cancel_r in E. rewrite <- !append_assoc in E.
  now apply append_cancel_l in E.
Qed.

Lemma GetLatestRemoteHashForBranch_takes_no_lock_witness :
  let w := worldOf (lockRepo "org/repo" (simWorld [] [])) in
  exists hash err w',
    GetLatestRemoteHashForBranch simClient tt "origin" "main" w
    = (Ret (hash, err), w')
    /\ mutexes w' = mutexes w.
Proof.
  intros w.
  destruct (GetLatestRemoteHashForBranch_takes_no_lock simClient tt "origin" "main" w)
    as (hash & err & w' & E & _ & _ & Hm & _).
  exists hash, err, w'. split; assumption.
Defined.

Lemma NewClient_result_witness :
  outcomeOf (NewClient "bot" "bot@example.com" (mkLogger []) (simWorld [] []))
  = Ret (Some (mkClient "bot" "bot@example.com" "/usr/bin/git" "/tmp/gitcache1"
                 (mkLogger [])), None).
Proof.
  destruct (NewClient_result "bot" "bot@example.com" (mkLogger [])
              (simWorld [] [])) as (_ & _ & Hok & _).
  apply (Hok "/usr/bin/git" "/tmp/gitcache1" _ eq_refl eq_refl).
Defined.

Lemma NewClient_then_Clone_witness :
  exists res w2,
    Clone (mkClient "bot" "" "/usr/bin/git" "/tmp/gitcache1" (mkLogger [])) tt
      "https://github.com" "org/repo" "/work/d1"
      (worldOf (NewClient "bot" "" (mkLogger []) (simWorld [] [])))
    = (Ret res, w2)
    /\ locksIdle w2.
Proof.
  destruct (NewClient_then_Clone (Ctx := unit) "bot" "" (mkLogger [])
              (simWorld [] [])
              (worldOf (NewClient "bot" "" (mkLogger []) (simWorld [] [])))
              (mkClient "bot" "" "/usr/bin/git" "/tmp/gitcache1" (mkLogger [])))
    as (_ & _ & Hclone); [vm_compute; reflexivity|].
  destruct (Hclone tt "https://github.com" "org/repo" "/work/d1")
    as (res & w2 & E & Hidle & _).
  exists res, w2. split; assumption.
Defined.

Lemma repoCachePath_injective_witness :
  repoCachePath simClient "org/repo" <> repoCachePath simClient "org/other".
Proof.
  apply (repoCachePath_injective simClient "org/repo" "org/other");
    try reflexivity.
  discriminate.
Defined.

(** ** The lock registry under interleaving: calls end *)

Section InterleavingMore.
Variable key : nat -> string.
Implicit Types (s : Pool) (t u : nat) (l : nat).

Ltac step_cases E :=
  unfold step in E;
  repeat match type of E with
         | context [match ?d with _ => _ end] => destruct d eqn:?
         end;
  try discriminate; injection E as <-.

Lemma step_muOwned s t s' :
  Inv key s -> muOwned s -> step key t s = Some s' -> muOwned s'.
Proof.
  intros HI HO Hs.
  pose proof (step_Inv key s t s' HI Hs) as HI'.
  pose proof (inv_nocrash _ _ HI' t) as Hnc.
  intros Hmu'. step_cases Hs; cbn [c_mu pcs] in *;
    rewrite ?setPc_eq in Hnc; try congruence;
    try (exists t; rewrite setPc_eq; reflexivity);
    destruct (HO Hmu') as [u Hu]; exists u;
    (destruct (Nat.eq_dec u t) as [->|Hne];
     [match goal with
      | Et : pcs s t = _ |- _ => rewrite Et in Hu; discriminate
      end
     |now rewrite setPc_ne]).
Qed.

Lemma turn_muOwned s t : Inv key s -> muOwned s -> muOwned (turn key t s).
Proof.
  intros HI HO. unfold turn. destruct (step key t s) eqn:E; [|exact HO].
  exact (step_muOwned _ _ _ HI HO E).
Qed.

Lemma exec_muOwned (sched : list nat) s :
  Inv key s -> muOwned s -> muOwned (exec key sched s).
Proof.
  revert s. induction sched as [|t ts IH]; intros s HI HO; simpl; [exact HO|].
  apply IH; [apply turn_Inv, HI|apply turn_muOwned; assumption].
Qed.

Lemma muOwned_init : muOwned initPool.
Proof. intros Hmu. discriminate. Qed.

(** X19: when every goroutine is outside a call, having returned or not
    yet called, the registry mutex and every mutex of the registry are
    unlocked: a call leaves nothing locked behind. *)
Theorem repoLocks_idle_between_calls (sched : list nat) :
  let s := exec key sched initPool in
  (forall t, outside (pcs s t) = true) ->
  c_mu s = false
  /\ forall k l, c_repoLocks s !! k = Some l -> heap s !! l = Some false.
Proof.
  intros s Hout.
  assert (HI : Inv key s) by (apply exec_Inv, Inv_init).
  assert (HO : muOwned s) by (apply exec_muOwned; [apply Inv_init|apply muOwned_init]).
  split.
  - destruct (c_mu s) eqn:Emu; [|reflexivity].
    destruct (HO Emu) as [u Hu]. specialize (Hout u).
    destruct (pcs s u); discriminate.
  - intros k l Hk. destruct (inv_reg_heap _ _ HI k l Hk) as [[|] Hb]; [|exact Hb].
    destruct (inv_locked_held _ _ HI l Hb) as [u Hu]. specialize (Hout u).
    destruct (pcs s u); discriminate.
Qed.

(** A step brings a goroutine nearer to the end of its call. *)
Lemma step_rank s t s' :
  step key t s = Some s' -> (rank (pcs s' t) < rank (pcs s t))%nat.
Proof.
  intros Hs. step_cases Hs; cbn [pcs]; rewrite setPc_eq; cbn; lia.
Qed.

(** A goroutine that holds the registry mutex can always move, and stays
    the holder until it has released it. *)
Lemma registry_step s u :
  Inv key s -> inRegistry (pcs s u) = true ->
  exists s',
    step key u s = Some s'
    /\ (c_mu s' = false \/ inRegistry (pcs s' u) = true).
Proof.
  intros HI Hu. pose proof (inv_mu_held _ _ HI u Hu) as Hmu.
  unfold step. destruct (pcs s u) as [| | | |m|m|l|l|l| | |] eqn:Et;
    try discriminate.
  - destruct (c_repoLocks s !! key u); eexists; (split; [reflexivity|]);
      right; cbn [pcs]; now rewrite setPc_eq.
  - eexists. split; [reflexivity|]. right. cbn [pcs]. now rewrite setPc_eq.
  - eexists. split; [reflexivity|]. right. cbn [pcs]. now rewrite setPc_eq.
  - rewrite Hmu. eexists. split; [reflexivity|]. now left.
  - assert (Hh : holds (pcs s u) = Some l) by (now rewrite Et).
    rewrite (inv_ref _ _ HI u l (holds_lockRef _ _ Hh)).
    rewrite (inv_holds_locked _ _ HI u l Hh).
    eexists. split; [reflexivity|]. right. cbn [pcs]. now rewrite setPc_eq.
  - rewrite Hmu. eexists. split; [reflexivity|]. now left.
Qed.

Lemma free_registry_from (n : nat) s u :
  Inv key s -> inRegistry (pcs s u) = true -> (rank (pcs s u) <= n)%nat ->
  exists k, c_mu (exec key (replicate k u) s) = false.
Proof.
  revert s. induction n as [|n IH]; intros s HI Hu Hn.
  - destruct (pcs s u); try discriminate; cbn in Hn; lia.
  - destruct (registry_step s u HI Hu) as (s' & Es & Hs').
    assert (Et : turn key u s = s') by (unfold turn; now rewrite Es).
    destruct Hs' as [Hfree|Hu'].
    + exists 1%nat. cbn [replicate exec]. now rewrite Et.
    + destruct (IH s') as [k Hk].
      * exact (step_Inv _ _ _ _ HI Es).
      * exact Hu'.
      * pose proof (step_rank _ _ _ Es). lia.
      * exists (S k). cbn [replicate exec]. now rewrite Et.
Qed.

(** The registry mutex can always be freed, by its holder alone. *)
Lemma free_registry s :
  Inv key s -> muOwned s ->
  exists sched,
    c_mu (exec key sched s) = false
    /\ forall t, inRegistry (pcs s t) = false -> pcs (exec key sched s) t = pcs s t.
Proof.
  intros HI HO. destruct (c_mu s) eqn:Emu.
  - destruct (HO Emu) as [u Hu].
    destruct (free_registry_from _ s u HI Hu (Nat.le_refl _)) as [k Hk].
    exists (replicate k u). split; [exact Hk|].
    intros t Ht. apply exec_solo_other. intros ->. congruence.
  - exists []. split; [exact Emu|reflexivity].
Qed.

(** The mutex of a repository can always be freed, by its holder and the
    holder of the registry mutex. *)
Lemma release_mutex s u l :
  Inv key s -> muOwned s -> holds (pcs s u) = Some l ->
  exists sched,
    heap (exec key sched s) !! l = Some false
    /\ forall t, t <> u -> inRegistry (pcs s t) = false ->
         pcs (exec key sched s) t = pcs s t.
Proof.
  assert (A : forall s, Inv key s -> pcs s u = AtUnlockRepo l ->
                heap (turn key u s) !! l = Some false).
  { intros s0 HI Et.
    assert (Hh : holds (pcs s0 u) = Some l) by (now rewrite Et).
    rewrite (turn_AtUnlockRepo key s0 u l l Et
               (inv_ref _ _ HI u l (holds_lockRef _ _ Hh))
               (inv_holds_locked _ _ HI u l Hh)).
    cbn [heap]. apply lookup_insert_eq. }
  assert (B : forall s, Inv key s -> muOwned s -> pcs s u = AtUnlock l ->
                exists sched,
                  heap (exec key sched s) !! l = Some false
                  /\ forall t, t <> u -> inRegistry (pcs s t) = false ->
                       pcs (exec key sched s) t = pcs s t).
  { intros s0 HI HO Et.
    destruct (free_registry s0 HI HO) as (sched1 & Hmu1 & Hsame1).
    set (s1 := exec key sched1 s0) in *.
    assert (HI1 : Inv key s1) by (apply exec_Inv, HI).
    assert (Et1 : pcs s1 u = AtUnlock l)
      by (rewrite Hsame1; [exact Et|now rewrite Et]).
    pose proof (turn_AtUnlock key s1 u l Et1 Hmu1) as E2.
    assert (HI2 : Inv key (turn key u s1)) by (apply turn_Inv, HI1).
    assert (Et2 : pcs (turn key u s1) u = AtUnlockRepo l)
      by (rewrite E2; cbn [pcs]; apply setPc_eq).
    exists (sched1 ++ [u; u])%list. rewrite exec_app. fold s1. cbn [exec].
    split; [now apply A|].
    intros t Hne Ht. rewrite !turn_other by assumption. now apply Hsame1. }
  intros HI HO Hh. destruct (pcs s u) as [| | | |m|m|l0|l0|l0| | |] eqn:Et;
    try discriminate; injection Hh as ->.
  - (* in the body of Clone *)
    assert (E1 : turn key u s
                 = mkPool (c_mu s) (c_repoLocks s) (heap s)
                     (setPc u (AtUnlock l) (pcs s)))
      by (unfold turn, step; now rewrite Et).
    destruct (B (turn key u s)) as (sched & Hfree & Hsame).
    + apply turn_Inv, HI.
    + now apply turn_muOwned.
    + rewrite E1. cbn [pcs]. apply setPc_eq.
    + exists (u :: sched). cbn [exec]. split; [exact Hfree|].
      intros t Hne Ht. rewrite Hsame; [now apply turn_other|exact Hne|].
      now rewrite turn_other.
  - now apply B.
  - exists [u]. cbn [exec]. split; [now apply A|].
    intros t Hne _. now apply turn_other.
Qed.

(** A goroutine that has not returned can be brought nearer to the end of
    its call. *)
Lemma progress s t :
  Inv key s -> muOwned s -> pcs s t <> Returned ->
  exists sched, (rank (pcs (exec key sched s) t) < rank (pcs s t))%nat.
Proof.
  intros HI HO Hnot. destruct (step key t s) as [s'|] eqn:E.
  - exists [t]. cbn [exec]. unfold turn. rewrite E. now apply step_rank.
  - pose proof (inv_nocrash _ _ HI t) as Hnc.
    unfold step in E.
    destruct (pcs s t) as [| | | |m|[l|]|l|l|l| | |] eqn:Et;
      try discriminate; try congruence;
      try (destruct (c_mu s); discriminate);
      try (destruct (c_repoLocks s !! key t) as [l'|];
           [destruct (heap s !! l') as [[|]|]|]; discriminate).
    + (* c.mu.Lock() in lockRepo *)
      destruct (free_registry s HI HO) as (sched1 & Hmu1 & Hsame1).
      assert (Et1 : pcs (exec key sched1 s) t = AtLock)
        by (rewrite Hsame1; [exact Et|now rewrite Et]).
      exists (sched1 ++ [t])%list. rewrite exec_app. cbn [exec].
      rewrite (turn_AtLock key _ t Et1 Hmu1). cbn [pcs]. rewrite setPc_eq.
      cbn. lia.
    + (* mu.Lock() *)
      destruct (heap s !! l) as [[|]|] eqn:Eh; try discriminate.
      destruct (inv_locked_held _ _ HI l Eh) as [u Hu].
      assert (Hne : t <> u) by (intros ->; rewrite Et in Hu; discriminate).
      destruct (release_mutex s u l HI HO Hu) as (sched1 & Hfree1 & Hsame1).
      assert (Et1 : pcs (exec key sched1 s) t = AtAcquire (Some l))
        by (rewrite Hsame1; [exact Et|exact Hne|now rewrite Et]).
      exists (sched1 ++ [t])%list. rewrite exec_app. cbn [exec].
      rewrite (turn_AtAcquire key _ t l Et1 Hfree1). cbn [pcs]. rewrite setPc_eq.
      cbn. lia.
    + (* c.mu.Lock() in unlockRepo *)
      destruct (free_registry s HI HO) as (sched1 & Hmu1 & Hsame1).
      assert (Et1 : pcs (exec key sched1 s) t = AtUnlock l)
        by (rewrite Hsame1; [exact Et|now rewrite Et]).
      exists (sched1 ++ [t])%list. rewrite exec_app. cbn [exec].
      rewrite (turn_AtUnlock key _ t l Et1 Hmu1). cbn [pcs]. rewrite setPc_eq.
      cbn. lia.
Qed.

Lemma can_return_from (n : nat) s t :
  Inv key s -> muOwned s -> (rank (pcs s t) <= n)%nat ->
  exists sched, pcs (exec key sched s) t = Returned.
Proof.
  revert s. induction n as [|n IH]; intros s HI HO Hn.
  - exists []. cbn [exec]. pose proof (inv_nocrash _ _ HI t) as Hnc.
    destruct (pcs s t); cbn in Hn; try lia; congruence.
  - assert (Hdec : pcs s t = Returned \/ pcs s t <> Returned)
      by (destruct (pcs s t); (now left) || (now right)).
    destruct Hdec as [Hr|Hr]; [now exists []|].
    destruct (progress s t HI HO Hr) as (sched1 & Hlt).
    destruct (IH (exec key sched1 s)) as (sched2 & Hret).
    + apply exec_Inv, HI.
    + now apply exec_muOwned.
    + lia.
    + exists (sched1 ++ sched2)%list. now rewrite exec_app.
Qed.

(** X20: the locks of Clone cannot deadlock: from every pool that the
    goroutines can reach, every goroutine can be brought to the end of its
    call by running goroutines further, given that the body of Clone
    between lockRepo and unlockRepo ends (it is one step here).  No call
    is stuck for ever behind the registry mutex or the mutex of a
    repository. *)
Theorem Clone_calls_can_end (sched : list nat) (t : nat) :
  exists more, pcs (exec key (sched ++ more) initPool) t = Returned.
Proof.
  destruct (can_return_from (rank (pcs (exec key sched initPool) t))
              (exec key sched initPool) t) as (more & Hret).
  - apply exec_Inv, Inv_init.
  - apply exec_muOwned; [apply Inv_init|apply muOwned_init].
  - apply Nat.le_refl.
  - exists more. now rewrite exec_app.
Qed.

End InterleavingMore.

Lemma repoLocks_idle_between_calls_witness :
  let s := exec simKey (replicate 10 0%nat) initPool in
  (forall t, outside (pcs s t) = true)
  /\ c_mu s = false
  /\ forall k l, c_repoLocks s !! k = Some l -> heap s !! l = Some false.
Proof.
  assert (Hout : forall t,
             outside (pcs (exec simKey (replicate 10 0%nat) initPool) t) = true)
    by (intros [|t]; vm_compute; reflexivity).
  split; [exact Hout|].
  apply (repoLocks_idle_between_calls simKey (replicate 10 0%nat)), Hout.
Defined.
